(** * Custom Commander: command registry, recency order and executor

    A shallow embedding of the extension's main module
    (extension.js: [extractMetaFromFunction], [loadCustomCommands],
    [executeCustomCommand], [updateRecentlyUsedCommands],
    [registerCustomCommands], [reloadCommands], [activate]) together with
    the properties of its command registry.

    Conventions of the embedding.
    - A JavaScript string is a [string]; a character stands for one code
      unit.  The two built-ins whose result depends on Unicode tables
      ([String.prototype.trim] and [String.prototype.toUpperCase]) are
      modelled on the ASCII range.
    - The module-level variables [customCommands],
      [customCommandDisposables], [userCommandsModule] and
      [recentlyUsedCommands] are the fields of one explicit [State],
      threaded through a small state-and-exception monad.
    - The host (command registration, notifications, clipboard, editor) is
      part of that state: a table of active registrations and a log of the
      observable calls, in program order.
    - One call into the extension runs to its end before the next one
      starts: what may happen while a call waits at an [await] is not
      modelled. *)

From Stdlib Require Import ZArith Ascii String DecimalString.
From stdpp Require Import base list strings gmap sorting.

Local Open Scope Z_scope.

(** ** JavaScript string built-ins used by the extension *)

Module JsString.

Definition dquote : string := String (ascii_of_nat 34) EmptyString.
Definition newline : string := String (ascii_of_nat 10) EmptyString.

(** [s.startsWith(p)] *)
Fixpoint startsWith (s p : string) {struct p} : bool :=
  match p, s with
  | EmptyString, _ => true
  | String a p', String b s' => if decide (a = b) then startsWith s' p' else false
  | String _ _, EmptyString => false
  end.

(** [s.includes(p)] *)
Fixpoint includes (s p : string) : bool :=
  startsWith s p ||
  match s with
  | EmptyString => false
  | String _ s' => includes s' p
  end.

Fixpoint drop (n : nat) (s : string) : string :=
  match n, s with
  | S k, String _ s' => drop k s'
  | _, _ => s
  end.

(** [s.substring(0, n)] *)
Fixpoint take (n : nat) (s : string) : string :=
  match n, s with
  | S k, String c s' => String c (take k s')
  | _, _ => EmptyString
  end.

(** [s.replace(pat, rep)] for a string pattern: only the first occurrence
    is replaced.  [rep] is taken literally (the extension passes the empty
    string, which has no [$] patterns). *)
Fixpoint replace (s pat rep : string) : string :=
  if startsWith s pat then rep +:+ drop (String.length pat) s
  else match s with
       | EmptyString => EmptyString
       | String c s' => String c (replace s' pat rep)
       end.

(** [s.split(sep)] for a non-empty separator.  [skip] counts the code
    units of a separator occurrence that are still to be consumed; the
    head of the result is the piece being read. *)
Fixpoint split_go (sep : string) (skip : nat) (s : string) : list string :=
  match s with
  | EmptyString => [EmptyString]
  | String c s' =>
      match skip with
      | S k => split_go sep k s'
      | O =>
          if startsWith s sep
          then EmptyString :: split_go sep (String.length sep - 1) s'
          else match split_go sep 0 s' with
               | piece :: rest => String c piece :: rest
               | [] => [String c EmptyString]
               end
      end
  end.

Definition split (s sep : string) : list string := split_go sep 0 s.

(** The code units below 256 that [trim] strips: the white space TAB, VT,
    FF, SP and NBSP (code unit 160), and the line terminators LF and CR.
    (The other white space and line terminators of the language have code
    units from 5760 on, which these strings do not hold.) *)
Definition isWhiteSpace (c : ascii) : bool :=
  Ascii.is_space c || (N_of_ascii c =? 160)%N.

(** [s.trim()]. *)
Fixpoint trimStart (s : string) : string :=
  match s with
  | String c s' => if isWhiteSpace c then trimStart s' else s
  | EmptyString => EmptyString
  end.

Fixpoint trimEnd (s : string) : string :=
  match s with
  | EmptyString => EmptyString
  | String c s' =>
      match trimEnd s' with
      | EmptyString => if isWhiteSpace c then EmptyString else String c EmptyString
      | t => String c t
      end
  end.

Definition trim (s : string) : string := trimEnd (trimStart s).

(** The character class [[A-Z]]. *)
Definition isUpperAZ (c : ascii) : bool :=
  let n := N_of_ascii c in ((65 <=? n) && (n <=? 90))%N.

(** Text of the ASCII range: every code unit is below 128. *)
Definition isAscii1 (c : ascii) : bool := (N_of_ascii c <? 128)%N.

Fixpoint isAscii (s : string) : bool :=
  match s with
  | EmptyString => true
  | String c s' => isAscii1 c && isAscii s'
  end.

(** [c.toUpperCase()] on one code unit of the ASCII range, where only the
    letters [a] to [z] change.  Above that range the built-in follows the
    case mapping of Unicode, whose results need not be one code unit below
    256 (code unit 223 gives two letters, 181 and 255 give code units above
    255): the statements that depend on capitalisation are made for ASCII
    text ([isAscii]). *)
Definition toUpperCase1 (c : ascii) : ascii :=
  let n := N_of_ascii c in
  if ((97 <=? n) && (n <=? 122))%N then ascii_of_N (n - 32) else c.

(** What [.] does not match without the [s] flag. *)
Definition isLineTerminator (c : ascii) : bool :=
  let n := N_of_ascii c in ((n =? 10) || (n =? 13))%N.

(** [s.replace(/([A-Z])/g, " $1")]: every match of the class, left to
    right, is replaced by a space followed by the matched letter. *)
Fixpoint replaceUpperGlobal (s : string) : string :=
  match s with
  | EmptyString => EmptyString
  | String c s' =>
      if isUpperAZ c then String " " (String c (replaceUpperGlobal s'))
      else String c (replaceUpperGlobal s')
  end.

(** [s.replace(/^./, (str) => str.toUpperCase())]: the pattern matches the
    first code unit unless the string is empty or starts with a line
    terminator. *)
Definition replaceFirstUpper (s : string) : string :=
  match s with
  | EmptyString => EmptyString
  | String c s' => if isLineTerminator c then s else String (toUpperCase1 c) s'
  end.

End JsString.

(** ** Metadata extractor *)

Record Meta := mkMeta { name : string; description : string }.

Definition paramPrefix : string := "// ~".

(** The lines of the source text that carry a directive, each split at
    [": "] (the chain [split], [map trim], [filter], [map] before the
    [reduce]).  The literal [allowedMeta] of the source is never read. *)
Definition metaLines (source : string) : list (list string) :=
  (fun x => JsString.split (JsString.replace x paramPrefix EmptyString) ": ") <$>
  List.filter (fun x => JsString.startsWith x paramPrefix && JsString.includes x ": ")
    (JsString.trim <$> JsString.split source JsString.newline).

(** One step of the [reduce]: [acc[key] = value] with [[key, value]] the
    first two elements of the split line.  A missing element is
    [undefined]: [None] as a value, the property name ["undefined"] as a
    key. *)
Definition metaStep (acc : gmap string (option string)) (parts : list string)
  : gmap string (option string) :=
  <[ default "undefined" (parts !! 0%nat) := parts !! 1%nat ]> acc.

Definition foundMeta (source : string) : gmap string (option string) :=
  foldl metaStep ∅ (metaLines source).

(** [v || d] for a property that is a string or [undefined]: the empty
    string is falsy. *)
Definition orElse (v : option string) (d : string) : string :=
  match v with
  | Some s => if decide (s = EmptyString) then d else s
  | None => d
  end.

(** [extractMetaFromFunction(funcName, func)], with [source] the text
    [func.toString()]. *)
Definition extractMetaFromFunction (funcName source : string) : Meta :=
  let found := foundMeta source in
  let name :=
    orElse (mjoin (found !! "name"))
      (JsString.replaceFirstUpper (JsString.replaceUpperGlobal funcName)) in
  {| name := name;
     description :=
       orElse (mjoin (found !! "description")) ("Execute " +:+ name +:+ " function") |}.

(** *** The derived name in the words of the specification

    The identifier is cut in front of every uppercase letter that is not
    its first character, the words are joined by single spaces, and the
    first character is capitalised. *)

Definition startsUpper (s : string) : bool :=
  match s with
  | String c _ => JsString.isUpperAZ c
  | EmptyString => false
  end.

Fixpoint camelWords (identifier : string) : list string :=
  match identifier with
  | EmptyString => [EmptyString]
  | String c rest =>
      if startsUpper rest then String c EmptyString :: camelWords rest
      else match camelWords rest with
           | word :: words => String c word :: words
           | [] => [String c EmptyString]
           end
  end.

Definition capitalize (s : string) : string :=
  match s with
  | String c s' => String (JsString.toUpperCase1 c) s'
  | EmptyString => EmptyString
  end.

Definition spacedWords (identifier : string) : string :=
  capitalize (String.concat " " (camelWords identifier)).

(** A line of the source text is a directive for [key] when, trimmed, it
    starts with the marker, the key, a colon and a space. *)
Definition directiveLine (key line : string) : bool :=
  JsString.startsWith (JsString.trim line) (paramPrefix +:+ key +:+ ": ").

Definition hasDirective (key source : string) : bool :=
  existsb (directiveLine key) (JsString.split source JsString.newline).

(** Source texts of the examples. *)
Definition plainSource : string := "async function getNowFromAPI() {
  return { popup: now() }
}".

Definition directedSource : string := "async function getNowFromAPI() {
  // ~name: Get Now
  // ~description: Fetch now.
  return { popup: now() }
}".

Definition colonSource : string := "function remind() {
  // ~name: Note: urgent
  return { popup: 1 }
}".

(** ** JavaScript arrays and Maps *)

Module JsArray.
Section Array.
Context {A : Type} `{EqDecision A}.

(** [l.indexOf(x)]: the first index holding [x], or [-1]. *)
Fixpoint indexOf (l : list A) (x : A) : Z :=
  match l with
  | [] => -1
  | y :: l' =>
      if decide (y = x) then 0
      else let i := indexOf l' x in
           if decide (i = -1) then -1 else i + 1
  end.

(** [l.includes(x)] *)
Definition includes (l : list A) (x : A) : bool := bool_decide (x ∈ l).

(** [l.splice(i, 1)] for an index [i] in range, and [l.unshift(x)]. *)
Definition splice1 (l : list A) (i : Z) : list A := delete (Z.to_nat i) l.
Definition unshift (l : list A) (x : A) : list A := x :: l.

(** [l.sort(comparefn)].  The language requires the sort to be stable,
    and for a consistent comparator it fixes the result: the elements
    in ascending order of [comparefn], those that compare equal in
    their original order.  The embedding is the insertion sort with
    that result: an element is put before the first element of the
    sorted rest that it does not compare greater than. *)
Fixpoint insert (comparefn : A → A → Z) (x : A) (l : list A) : list A :=
  match l with
  | [] => [x]
  | y :: l' =>
      if decide (comparefn x y ≤ 0) then x :: l
      else y :: insert comparefn x l'
  end.

Fixpoint sort (comparefn : A → A → Z) (l : list A) : list A :=
  match l with
  | [] => []
  | x :: l' => insert comparefn x (sort comparefn l')
  end.
End Array.
End JsArray.

(** A [Map] with string keys: the entries in insertion order, one per
    key. *)
Module JsMap.
Section Map.
Context {V : Type}.

Definition t := list (string * V).

Definition empty : t := [].

Fixpoint get (m : t) (k : string) : option V :=
  match m with
  | [] => None
  | (k', v) :: m' => if decide (k' = k) then Some v else get m' k
  end.

(** [m.set(k, v)]: an existing key keeps its place, a new one goes
    last. *)
Fixpoint set (m : t) (k : string) (v : V) : t :=
  match m with
  | [] => [(k, v)]
  | (k', v') :: m' =>
      if decide (k' = k) then (k, v) :: m' else (k', v') :: set m' k v
  end.

Definition keys (m : t) : list string := m.*1.
Definition size (m : t) : nat := length m.
End Map.
Global Arguments t : clear implicits.
End JsMap.

(** The comparator of [registerCustomCommands]. *)
Definition compareByRecency (recentlyUsedCommands : list string) (a b : string) : Z :=
  let aIndex := JsArray.indexOf recentlyUsedCommands a in
  let bIndex := JsArray.indexOf recentlyUsedCommands b in
  if bool_decide (aIndex ≠ -1) && bool_decide (bIndex ≠ -1) then aIndex - bIndex
  else if bool_decide (aIndex ≠ -1) then -1
  else if bool_decide (bIndex ≠ -1) then 1
  else 0.

Definition orderCommandIds (keys recentlyUsedCommands : list string) : list string :=
  JsArray.sort (compareByRecency recentlyUsedCommands) keys.

(** ** Values that cross the boundary with user code *)

Inductive Nullish := JsNull | JsUndefined.

(** A thrown value (or rejection reason), as far as a [catch] block that
    reads [error.message] can tell: [null] and [undefined] have no
    properties, any other value yields the text that the template literal
    makes of its [message] property (["undefined"] when it has none). *)
Inductive Thrown :=
| ThrowNullish (n : Nullish)
| ThrowValue (message : string).

(** What a callable resolves with, as far as the executor can tell:
    [undefined], [null], or a value whose three properties [popup],
    [replace] and [clipboard] are read.  A property is [None] when it is
    [undefined] and otherwise holds the text that [String(...)] makes of
    it. *)
Inductive ResultValue :=
| ResultUndefined
| ResultNull
| ResultFields (popup replace clipboard : option string).

Inductive Outcome :=
| Resolves (result : ResultValue)
| Rejects (error : Thrown).

(** An exported function: its source text ([func.toString()]) and what a
    call with the selected text settles to.  A callable is assumed to
    settle, and its own effects on the host are outside the model. *)
Record Callable := mkCallable {
  source : string;
  call : option string → Outcome;
}.

Inductive Export :=
| ExportFunction (f : Callable)
| ExportOther.

(** The value of [require(commandsPath)]: [null] or [undefined], or a value
    with its [Object.entries]. *)
Inductive ModuleValue :=
| ModuleNullish (n : Nullish)
| ModuleEntries (entries : list (string * Export)).

Inductive Required :=
| RequireThrows (error : Thrown)
| RequireReturns (module : ModuleValue).

(** What the extension reads from its surroundings: the result of
    [getCommandsFilePath()], whether that file exists, what [require] of
    it gives (the evaluation of the file, or the module that the cache of
    [require] holds for it), and the text selected in the active editor (if
    there is one). *)
Record Env := mkEnv {
  commandsFilePath : option string;
  fileExists : bool;
  required : Required;
  activeTextEditor : option string;
}.

(** Messages of the [TypeError]s that the engine raises in the extension's
    own code (V8's wording). *)
Module Engine.
Definition nullishName (n : Nullish) : string :=
  match n with JsNull => "null" | JsUndefined => "undefined" end.

Definition cannotReadPropertyText (prop : string) (n : Nullish) : string :=
  "Cannot read properties of " +:+ nullishName n +:+ " (reading '" +:+ prop +:+ "')".

Definition cannotDestructureText (prop var : string) (n : Nullish) : string :=
  "Cannot destructure property '" +:+ prop +:+ "' of '" +:+ var +:+
  "' as it is " +:+ nullishName n +:+ ".".

Definition cannotConvertToObjectText : string :=
  "Cannot convert undefined or null to object".

Definition cannotReadProperty (prop : string) (n : Nullish) : Thrown :=
  ThrowValue (cannotReadPropertyText prop n).

Definition cannotDestructure (prop var : string) (n : Nullish) : Thrown :=
  ThrowValue (cannotDestructureText prop var n).

Definition cannotConvertToObject : Thrown := ThrowValue cannotConvertToObjectText.
End Engine.

(** ** State of the extension and of the host *)

Record Command := mkCommand { func : Callable; meta : Meta }.

Inductive Handler :=
| HExecute (commandId : string)
| HPicker (orderedCommandIds : list string)
| HCreateCommandsFile
| HReloadCommands.

(** A registration made with [vscode.commands.registerCommand]; [token]
    tells one registration from another. *)
Record Disposable := mkDisposable {
  token : nat;
  registeredId : string;
  handler : Handler;
}.

Record QuickPickItem := mkItem {
  label : string;
  itemDescription : string;
  commandId : string;
}.

Inductive Event :=
| ShowErrorMessage (text : string)
| ShowInformationMessage (text : string)
| SetStatusBarMessage (text : string)
| ShowQuickPick (items : list QuickPickItem) (placeHolder : string)
| ClipboardWriteText (text : string)
| EditorReplace (text : string)
| CreateCommandsFile
| UnhandledRejection (error : Thrown).

Record State := mkState {
  customCommands : JsMap.t Command;
  customCommandDisposables : list Disposable;
  userCommandsModule : option ModuleValue;
  recentlyUsedCommands : list string;
  hostCommands : list Disposable;
  nextToken : nat;
  log : list Event;
}.

Definition initialState : State :=
  {| customCommands := JsMap.empty;
     customCommandDisposables := [];
     userCommandsModule := None;
     recentlyUsedCommands := [];
     hostCommands := [];
     nextToken := 0;
     log := [] |}.

Definition set_customCommands (v : JsMap.t Command) (st : State) : State :=
  mkState v (customCommandDisposables st) (userCommandsModule st)
    (recentlyUsedCommands st) (hostCommands st) (nextToken st) (log st).

Definition set_customCommandDisposables (v : list Disposable) (st : State) : State :=
  mkState (customCommands st) v (userCommandsModule st)
    (recentlyUsedCommands st) (hostCommands st) (nextToken st) (log st).

Definition set_userCommandsModule (v : option ModuleValue) (st : State) : State :=
  mkState (customCommands st) (customCommandDisposables st) v
    (recentlyUsedCommands st) (hostCommands st) (nextToken st) (log st).

Definition set_recentlyUsedCommands (v : list string) (st : State) : State :=
  mkState (customCommands st) (customCommandDisposables st) (userCommandsModule st)
    v (hostCommands st) (nextToken st) (log st).

Definition set_hostCommands (v : list Disposable) (st : State) : State :=
  mkState (customCommands st) (customCommandDisposables st) (userCommandsModule st)
    (recentlyUsedCommands st) v (nextToken st) (log st).

Definition set_nextToken (v : nat) (st : State) : State :=
  mkState (customCommands st) (customCommandDisposables st) (userCommandsModule st)
    (recentlyUsedCommands st) (hostCommands st) v (log st).

Definition set_log (v : list Event) (st : State) : State :=
  mkState (customCommands st) (customCommandDisposables st) (userCommandsModule st)
    (recentlyUsedCommands st) (hostCommands st) (nextToken st) v.

(** ** The monad of the extension's functions

    A function either completes normally with a value or abruptly with a
    thrown value; for an [async] function the abrupt completion is the
    rejection of the promise it returns. *)

Inductive Completion (A : Type) :=
| Normal (a : A)
| Abrupt (error : Thrown).
Global Arguments Normal {A} a.
Global Arguments Abrupt {A} error.

Definition M (A : Type) : Type := State → Completion A * State.

Global Instance M_ret : MRet M := λ A a st, (Normal a, st).

Global Instance M_bind : MBind M := λ A B f m st,
  match m st with
  | (Normal a, st') => f a st'
  | (Abrupt e, st') => (Abrupt e, st')
  end.

Definition throw {A} (e : Thrown) : M A := λ st, (Abrupt e, st).

Definition tryCatch {A} (body : M A) (handle : Thrown → M A) : M A := λ st,
  match body st with
  | (Normal a, st') => (Normal a, st')
  | (Abrupt e, st') => handle e st'
  end.

Definition gets {A} (f : State → A) : M A := λ st, (Normal (f st), st).
Definition modify (f : State → State) : M unit := λ st, (Normal tt, f st).
Definition emit (e : Event) : M unit := modify (λ st, set_log (log st ++ [e]) st).

Fixpoint forEach {A} (l : list A) (body : A → M unit) : M unit :=
  match l with
  | [] => mret tt
  | x :: l' => body x ;; forEach l' body
  end.

Fixpoint mapArray {A B} (l : list A) (f : A → M B) : M (list B) :=
  match l with
  | [] => mret []
  | x :: l' => y ← f x; ys ← mapArray l' f; mret (y :: ys)
  end.

(** A call of an [async] function whose promise is dropped: a rejection
    goes nowhere. *)
Definition detached (m : M unit) : M unit :=
  tryCatch m (λ e, emit (UnhandledRejection e)).

(** [error.message] inside a template literal. *)
Definition errorMessage (error : Thrown) : M string :=
  match error with
  | ThrowNullish n => throw (Engine.cannotReadProperty "message" n)
  | ThrowValue message => mret message
  end.

(** ** Host interface *)

(** [vscode.commands.registerCommand(id, handler)].  The host refuses an id
    that is active; the registry disposes of its registrations before it
    registers, under ids that differ from one another and from the
    built-in ones ([reachable_consistent] below), so that refusal is left
    out. *)
Definition registerCommand (id : string) (h : Handler) : M Disposable := λ st,
  let d := mkDisposable (nextToken st) id h in
  (Normal d, set_nextToken (S (nextToken st)) (set_hostCommands (hostCommands st ++ [d]) st)).

(** [disposable.dispose()]: the registration is removed if it is active. *)
Definition dispose (d : Disposable) : M unit :=
  modify (λ st, set_hostCommands
                  (filter (λ r, token r ≠ token d) (hostCommands st)) st).

Definition showErrorMessage (text : string) : M unit := emit (ShowErrorMessage text).

(** [require(commandsPath)]: what it returns or throws is given by the
    surroundings. *)
Definition requireModule (env : Env) : M ModuleValue :=
  match required env with
  | RequireThrows e => throw e
  | RequireReturns m => mret m
  end.

(** [Object.entries(m)] *)
Definition objectEntries (m : ModuleValue) : M (list (string * Export)) :=
  match m with
  | ModuleNullish _ => throw Engine.cannotConvertToObject
  | ModuleEntries entries => mret entries
  end.

(** ** The extension's functions *)

Definition customCommandId (funcName : string) : string :=
  "custom-commander.custom." +:+ funcName.

Definition pickerCommandId : string := "custom-commander.pickCustomCommand".

Definition loadCustomCommands (env : Env) : M unit :=
  modify (set_customCommands JsMap.empty) ;;
  modify (set_userCommandsModule None) ;;
  if negb (bool_decide (is_Some (commandsFilePath env))) || negb (fileExists env)
  then mret tt
  else
    tryCatch
      (m ← requireModule env;
       modify (set_userCommandsModule (Some m)) ;;
       entries ← objectEntries m;
       forEach entries (λ '(funcName, value),
         match value with
         | ExportFunction f =>
             modify (λ st,
               set_customCommands
                 (JsMap.set (customCommands st) (customCommandId funcName)
                    {| func := f; meta := extractMetaFromFunction funcName (source f) |})
                 st)
         | ExportOther => mret tt
         end))
      (λ error,
         message ← errorMessage error;
         showErrorMessage ("Error loading custom-commander.js: " +:+ message)).

(** [registerCustomCommands(context)]; the parameter is not used by the
    function. *)
Definition registerCustomCommands : M unit :=
  disposables ← gets customCommandDisposables;
  forEach disposables dispose ;;
  modify (set_customCommandDisposables []) ;;
  keys ← gets (λ st, JsMap.keys (customCommands st));
  recent ← gets recentlyUsedCommands;
  let orderedCommandIds := JsArray.sort (compareByRecency recent) keys in
  forEach orderedCommandIds (λ commandId,
    disposable ← registerCommand commandId (HExecute commandId);
    modify (λ st,
      set_customCommandDisposables (customCommandDisposables st ++ [disposable]) st)) ;;
  pickerDisposable ← registerCommand pickerCommandId (HPicker orderedCommandIds);
  modify (λ st,
    set_customCommandDisposables (customCommandDisposables st ++ [pickerDisposable]) st).

(** [reloadCommands(silent)].  The function is [async] and has no [await]:
    it runs to its end when it is called.  The deletion of the cache entry
    bears on what [require] gives next, which is [required env] here;
    [evictCommands] and [requireOn] below compute it from a cache. *)
Definition reloadCommands (env : Env) (silent : bool) : M unit :=
  loadCustomCommands env ;;
  registerCustomCommands ;;
  if silent then mret tt
  else
    size ← gets (λ st, JsMap.size (customCommands st));
    emit (SetStatusBarMessage
            ("Reloaded " +:+ NilZero.string_of_uint (Nat.to_uint size) +:+
             " custom commands")).

Definition touch (recent : list string) (commandId : string) : list string :=
  let existingIndex := JsArray.indexOf recent commandId in
  JsArray.unshift
    (if decide (existingIndex > -1) then JsArray.splice1 recent existingIndex else recent)
    commandId.

(** [updateRecentlyUsedCommands(commandId)]; [touch] is its effect on the
    list, the reload is started and its promise dropped. *)
Definition updateRecentlyUsedCommands (env : Env) (commandId : string) : M unit :=
  modify (λ st, set_recentlyUsedCommands (touch (recentlyUsedCommands st) commandId) st) ;;
  detached (reloadCommands env true).

Definition whenDefined (v : option string) (body : string → M unit) : M unit :=
  match v with
  | Some text => body text
  | None => mret tt
  end.

(** [executeCustomCommand(commandId)].  The host calls ([edit],
    [writeText]) are taken to succeed. *)
Definition executeCustomCommand (env : Env) (commandId : string) : M unit :=
  command ← gets (λ st, JsMap.get (customCommands st) commandId);
  match command with
  | None => showErrorMessage "Custom command not found"
  | Some command =>
      updateRecentlyUsedCommands env commandId ;;
      let editor := activeTextEditor env in
      let selectedText := editor in
      tryCatch
        (match call (func command) selectedText with
         | Rejects error => throw error
         | Resolves ResultUndefined => mret tt
         | Resolves ResultNull => throw (Engine.cannotDestructure "popup" "result" JsNull)
         | Resolves (ResultFields popup replace clipboard) =>
             whenDefined popup (λ text, emit (ShowInformationMessage text)) ;;
             whenDefined replace (λ text,
               if bool_decide (is_Some editor) then emit (EditorReplace text)
               else mret tt) ;;
             whenDefined clipboard (λ text,
               emit (ClipboardWriteText text) ;;
               emit (SetStatusBarMessage
                       ("Copied to clipboard: " +:+ JsString.take 20 text)))
         end)
        (λ error,
           message ← errorMessage error;
           showErrorMessage
             ("Error in " +:+ JsString.dquote +:+ name (meta command) +:+
              JsString.dquote +:+ ": " +:+ message))
  end.

(** The handler of the picker command.  [orderedCommandIds] is the array
    captured when the handler was registered; [choice] is the index of the
    item the user selects, if any.  The file-creation flow is recorded as
    one event. *)
Definition createItem : QuickPickItem :=
  {| label := "$(file-add) Create Commands File";
     itemDescription := "Create a new custom-commander.js file with sample functions";
     commandId := "create-commands-file" |}.

Definition pickCustomCommand (env : Env) (orderedCommandIds : list string)
    (choice : option nat) : M unit :=
  size ← gets (λ st, JsMap.size (customCommands st));
  if decide (size = 0%nat) then
    let quickPickItems := [createItem] in
    emit (ShowQuickPick quickPickItems
            "No custom functions found. Create a commands file to get started.") ;;
    match choice ≫= (quickPickItems !!.) with
    | Some selected =>
        if decide (commandId selected = "create-commands-file")
        then emit CreateCommandsFile else mret tt
    | None => mret tt
    end
  else
    quickPickItems ← mapArray orderedCommandIds (λ id,
      data ← gets (λ st, JsMap.get (customCommands st) id);
      recent ← gets recentlyUsedCommands;
      let isRecent : bool := JsArray.includes recent id in
      match data with
      | None => throw (Engine.cannotReadProperty "name" JsUndefined)
      | Some data =>
          mret {| label := (if isRecent then "$(clock) " else EmptyString) +:+ name (meta data);
                  itemDescription := description (meta data);
                  commandId := id |}
      end);
    emit (ShowQuickPick quickPickItems "Select a custom command to run") ;;
    match choice ≫= (quickPickItems !!.) with
    | Some selected => executeCustomCommand env (commandId selected)
    | None => mret tt
    end.

(** What the host runs when the command of a registration is invoked. *)
Definition invoke (env : Env) (d : Disposable) (choice : option nat) : M unit :=
  match handler d with
  | HExecute commandId => executeCustomCommand env commandId
  | HPicker orderedCommandIds => pickCustomCommand env orderedCommandIds choice
  | HCreateCommandsFile => emit CreateCommandsFile
  | HReloadCommands => reloadCommands env false
  end.

(** [activate(context)], and the three callbacks of the file watcher. *)
Definition activate (env : Env) : M unit :=
  loadCustomCommands env ;;
  registerCommand "custom-commander.createCommandsFile" HCreateCommandsFile ;;
  registerCommand "custom-commander.reloadCommands" HReloadCommands ;;
  registerCustomCommands.

Definition onDidChange (env : Env) : M unit := detached (reloadCommands env false).
Definition onDidCreate (env : Env) : M unit := detached (reloadCommands env false).
Definition onDidDelete : M unit :=
  modify (set_customCommands JsMap.empty) ;;
  registerCustomCommands.

Definition deactivate : M unit :=
  disposables ← gets customCommandDisposables;
  forEach disposables dispose.

(** ** Summaries of the stateful functions

    The registrations that one pass of [registerCustomCommands] makes, the
    state it leaves, and what one call of [loadCustomCommands] yields.
    The lemmas of the next part show that the functions above compute
    them. *)

Fixpoint freshDisposables (n : nat) (ids : list string) : list Disposable :=
  match ids with
  | [] => []
  | id :: ids' => mkDisposable n id (HExecute id) :: freshDisposables (S n) ids'
  end.

Definition orderedCommandIds (st : State) : list string :=
  orderCommandIds (JsMap.keys (customCommands st)) (recentlyUsedCommands st).

Definition pickerDisposable (st : State) : Disposable :=
  mkDisposable (nextToken st + length (orderedCommandIds st)) pickerCommandId
    (HPicker (orderedCommandIds st)).

Definition registered (st : State) : State :=
  let fresh := freshDisposables (nextToken st) (orderedCommandIds st) in
  {| customCommands := customCommands st;
     customCommandDisposables := fresh ++ [pickerDisposable st];
     userCommandsModule := userCommandsModule st;
     recentlyUsedCommands := recentlyUsedCommands st;
     hostCommands :=
       filter (λ r, token r ∉ token <$> customCommandDisposables st) (hostCommands st)
       ++ fresh ++ [pickerDisposable st];
     nextToken := S (nextToken st + length (orderedCommandIds st));
     log := log st |}.

Definition loadEntry (m : JsMap.t Command) (entry : string * Export) : JsMap.t Command :=
  match entry.2 with
  | ExportFunction f =>
      JsMap.set m (customCommandId entry.1)
        {| func := f; meta := extractMetaFromFunction entry.1 (source f) |}
  | ExportOther => m
  end.

Record Loaded := mkLoaded {
  loadedCompletion : Completion unit;
  loadedCommands : JsMap.t Command;
  loadedModule : option ModuleValue;
  loadedEvents : list Event;
}.

Definition loadErrorText (message : string) : string :=
  "Error loading custom-commander.js: " +:+ message.

Definition loaded (env : Env) : Loaded :=
  if negb (bool_decide (is_Some (commandsFilePath env))) || negb (fileExists env)
  then mkLoaded (Normal tt) JsMap.empty None []
  else
    match required env with
    | RequireThrows (ThrowValue message) =>
        mkLoaded (Normal tt) JsMap.empty None [ShowErrorMessage (loadErrorText message)]
    | RequireThrows (ThrowNullish n) =>
        mkLoaded (Abrupt (Engine.cannotReadProperty "message" n)) JsMap.empty None []
    | RequireReturns (ModuleNullish n) =>
        mkLoaded (Normal tt) JsMap.empty (Some (ModuleNullish n))
          [ShowErrorMessage (loadErrorText Engine.cannotConvertToObjectText)]
    | RequireReturns (ModuleEntries entries) =>
        mkLoaded (Normal tt) (foldl loadEntry JsMap.empty entries)
          (Some (ModuleEntries entries)) []
    end.

Definition afterLoad (env : Env) (st : State) : State :=
  {| customCommands := loadedCommands (loaded env);
     customCommandDisposables := customCommandDisposables st;
     userCommandsModule := loadedModule (loaded env);
     recentlyUsedCommands := recentlyUsedCommands st;
     hostCommands := hostCommands st;
     nextToken := nextToken st;
     log := log st ++ loadedEvents (loaded env) |}.

(** The state after the reload that [updateRecentlyUsedCommands] starts:
    a load that ends abruptly leaves the registrations as they were and its
    rejection unhandled. *)
Definition afterSilentReload (env : Env) (st : State) : State :=
  match loadedCompletion (loaded env) with
  | Normal _ => registered (afterLoad env st)
  | Abrupt e =>
      set_log (log (afterLoad env st) ++ [UnhandledRejection e]) (afterLoad env st)
  end.

Definition afterTouch (env : Env) (commandId : string) (st : State) : State :=
  afterSilentReload env
    (set_recentlyUsedCommands (touch (recentlyUsedCommands st) commandId) st).

(** Every registration carries a token that the host has handed out. *)
Definition tokensIssued (st : State) : Prop :=
  Forall (λ d, (token d < nextToken st)%nat)
    (hostCommands st ++ customCommandDisposables st).

(** The two registrations that [activate] makes for the built-in commands
    (they go to [context.subscriptions]). *)
Definition builtinDisposables : list Disposable :=
  [mkDisposable 0 "custom-commander.createCommandsFile" HCreateCommandsFile;
   mkDisposable 1 "custom-commander.reloadCommands" HReloadCommands].

Definition customPrefix : string := "custom-commander.custom.".

(** What holds of the state between any two calls into the activated
    extension. *)
Record Consistent (st : State) : Prop := mkConsistent {
  consistent_issued : tokensIssued st;
  consistent_recent : NoDup (recentlyUsedCommands st);
  consistent_keys : NoDup (JsMap.keys (customCommands st));
  consistent_prefix :
    Forall (λ k, JsString.startsWith k customPrefix = true)
      (JsMap.keys (customCommands st));
  consistent_host : hostCommands st = builtinDisposables ++ customCommandDisposables st;
  consistent_tokens : NoDup (token <$> hostCommands st);
  consistent_ids : NoDup (registeredId <$> hostCommands st);
}.

(** One call into the activated extension: the host invokes an active
    registration, or the watcher reports a change of the definitions
    file. *)
Inductive step : State → State → Prop :=
| step_invoke st env d choice :
    d ∈ hostCommands st → step st (invoke env d choice st).2
| step_changed st env : step st (onDidChange env st).2
| step_created st env : step st (onDidCreate env st).2
| step_deleted st : step st (onDidDelete st).2.

Inductive reachable : State → Prop :=
| reachable_activated env st :
    activate env initialState = (Normal tt, st) → reachable st
| reachable_step st st' : reachable st → step st st' → reachable st'.

(** The time of the last use of an id in a history of uses (oldest first),
    [-1] when it was never used. *)
Fixpoint lastUse (history : list string) (commandId : string) : Z :=
  match history with
  | [] => -1
  | id :: history' =>
      let later := lastUse history' commandId in
      if decide (later = -1) then (if decide (id = commandId) then 0 else -1)
      else later + 1
  end.

(** The recency list that a history of uses (oldest first) should give:
    every id once, in decreasing order of its last use. *)
Definition mostRecentFirst (history : list string) : list string :=
  reverse (remove_dups history).

(** The state after a sequence of uses, each made in the surroundings of
    its time. *)
Definition touches (steps : list (Env * string)) (st : State) : State :=
  foldl (λ st step, (updateRecentlyUsedCommands step.1 step.2 st).2) st steps.

(** The events of the reload that a use of a command starts. *)
Definition silentReloadEvents (env : Env) : list Event :=
  loadedEvents (loaded env) ++
  match loadedCompletion (loaded env) with
  | Normal _ => []
  | Abrupt e => [UnhandledRejection e]
  end.

(** The side effects that the result of a callable can ask for. *)
Definition isAction (e : Event) : bool :=
  match e with
  | ShowInformationMessage _ | EditorReplace _ | ClipboardWriteText _ => true
  | _ => false
  end.

Definition commandErrorText (command : Command) (message : string) : string :=
  "Error in " +:+ JsString.dquote +:+ name (meta command) +:+ JsString.dquote +:+
  ": " +:+ message.

Definition emptyPlaceHolder : string :=
  "No custom functions found. Create a commands file to get started.".

(** How the executor ends once the callable has settled, and the events
    it adds after the reload. *)
Definition fieldEvents (editor : option string) (popup replace clipboard : option string)
  : list Event :=
  match popup with Some text => [ShowInformationMessage text] | None => [] end ++
  match replace, editor with Some text, Some _ => [EditorReplace text] | _, _ => [] end ++
  match clipboard with
  | Some text =>
      [ClipboardWriteText text;
       SetStatusBarMessage ("Copied to clipboard: " +:+ JsString.take 20 text)]
  | None => []
  end.

Definition settled (env : Env) (command : Command) (outcome : Outcome)
  : Completion unit * list Event :=
  match outcome with
  | Rejects (ThrowValue message) =>
      (Normal tt, [ShowErrorMessage (commandErrorText command message)])
  | Rejects (ThrowNullish n) => (Abrupt (Engine.cannotReadProperty "message" n), [])
  | Resolves ResultUndefined => (Normal tt, [])
  | Resolves ResultNull =>
      (Normal tt,
       [ShowErrorMessage
          (commandErrorText command
             (Engine.cannotDestructureText "popup" "result" JsNull))])
  | Resolves (ResultFields popup replace clipboard) =>
      (Normal tt, fieldEvents (activeTextEditor env) popup replace clipboard)
  end.

(** ** Sample inputs *)

Definition sampleCallable (outcome : Outcome) : Callable :=
  {| source := "async function sample(selectedText) {
  return work(selectedText)
}";
     call := λ _, outcome |}.

Definition samplePath : string := "/workspace/.vscode/custom-commander.js".

Definition sampleEnv (outcome : Outcome) : Env :=
  {| commandsFilePath := Some samplePath;
     fileExists := true;
     required :=
       RequireReturns
         (ModuleEntries [("sample", ExportFunction (sampleCallable outcome));
                         ("version", ExportOther)]);
     activeTextEditor := Some "selected" |}.

Definition sampleState (outcome : Outcome) : State :=
  (activate (sampleEnv outcome) initialState).2.

Definition sampleCommand (outcome : Outcome) : Command :=
  {| func := sampleCallable outcome;
     meta := {| name := "Sample"; description := "Execute Sample function" |} |}.

(** The sample state once the definitions file has been deleted: the
    command set is cleared, the registrations of the activation are still
    in place. *)
Definition clearedState : State :=
  set_customCommands JsMap.empty (sampleState (Resolves ResultUndefined)).

(** A definitions file whose evaluation throws [error]. *)
Definition throwingEnv (error : Thrown) : Env :=
  {| commandsFilePath := Some samplePath;
     fileExists := true;
     required := RequireThrows error;
     activeTextEditor := None |}.

(** ** Further summaries

    The command set that a module gives: one command for every exported
    function, in the order of [Object.entries]. *)
Definition commandOf (funcName : string) (f : Callable) : Command :=
  {| func := f; meta := extractMetaFromFunction funcName (source f) |}.

Definition exportedCommand (entry : string * Export) : option (string * Command) :=
  match entry.2 with
  | ExportFunction f => Some (customCommandId entry.1, commandOf entry.1 f)
  | ExportOther => None
  end.

Definition exportedCommands (entries : list (string * Export)) : JsMap.t Command :=
  omap exportedCommand entries.

(** The registry matches the command set: its registrations are those of
    the ordered ids, each bound to the executor for its id, and the picker
    with that order. *)
Definition registryMatches (st : State) : Prop :=
  registeredId <$> customCommandDisposables st = orderedCommandIds st ++ [pickerCommandId]
  ∧ handler <$> customCommandDisposables st =
      (HExecute <$> orderedCommandIds st) ++ [HPicker (orderedCommandIds st)].

(** Between two calls the registry matches the command set, unless the set
    is empty. *)
Definition Synced (st : State) : Prop :=
  customCommands st = [] ∨ registryMatches st.

(** The choices of the picker in the populated state. *)
Definition commandItem (recent : list string) (entry : string * Command) : QuickPickItem :=
  {| label :=
       (if JsArray.includes recent entry.1 then "$(clock) " else EmptyString) +:+
       name (meta entry.2);
     itemDescription := description (meta entry.2);
     commandId := entry.1 |}.

Definition orderedEntries (st : State) : list (string * Command) :=
  omap (λ id, (id,.) <$> JsMap.get (customCommands st) id) (orderedCommandIds st).

Definition populatedPlaceHolder : string := "Select a custom command to run".

(** ** Creating the definitions file

    [createCommandsFile] works on the file system and on windows of the
    host.  Of the file system the model keeps what the function reads and
    writes: whether the [.vscode] directory of the workspace folder exists,
    and the text of the definitions file when that file exists. *)
Record Disk := mkDisk {
  vscodeDirExists : bool;
  commandsFile : option string;
}.

(** The calls on windows of the host that only this function makes. *)
Inductive Notice :=
| ShowWarningMessage (message : string) (items : list string)
| OpenTextDocument (path : string)
| ShowTextDocument (path : string).

(** The extension together with the disk.  Every notice is kept with the
    length of the extension's log at its time, which fixes its place among
    the events of the log. *)
Record Workspace := mkWorkspace {
  extension : State;
  disk : Disk;
  notices : list (nat * Notice);
}.

(** What the surroundings answer during one call: the message of the error
    of [fs.mkdirSync] if it fails, the item chosen in the warning
    ([None] when it is dismissed), the text of the template or the message
    of the error of [fs.readFileSync], the message of the error of
    [fs.writeFileSync] if it fails, what evaluating a definitions file of
    a given text gives, the file name under which [require] stores the
    module of the definitions file (the path with its symbolic links
    resolved), and [require.cache] as the reload finds it (the modules
    loaded so far, by file name). *)
Record Answers := mkAnswers {
  mkdirError : option string;
  overwriteChoice : option string;
  templateRead : string + string;
  writeError : option string;
  evaluate : string → Required;
  resolvedFilename : string;
  requireCache : gmap string ModuleValue;
}.

Definition W (A : Type) : Type := Workspace → (Completion A * Workspace)%type.

Global Instance W_ret : MRet W := λ A a ws, (Normal a, ws).

Global Instance W_bind : MBind W := λ A B f m ws,
  match m ws with
  | (Normal a, ws') => f a ws'
  | (Abrupt e, ws') => (Abrupt e, ws')
  end.

Definition throwW {A} (e : Thrown) : W A := λ ws, (Abrupt e, ws).

Definition tryCatchW {A} (body : W A) (handle : Thrown → W A) : W A := λ ws,
  match body ws with
  | (Normal a, ws') => (Normal a, ws')
  | (Abrupt e, ws') => handle e ws'
  end.

(** A computation of the extension, run on the extension's part of the
    workspace. *)
Definition inExtension {A} (m : M A) : W A := λ ws,
  let '(r, st) := m (extension ws) in (r, mkWorkspace st (disk ws) (notices ws)).

Definition notice (n : Notice) : W unit := λ ws,
  (Normal tt,
   mkWorkspace (extension ws) (disk ws)
     (notices ws ++ [(length (log (extension ws)), n)])).

Definition getsDisk {A} (f : Disk → A) : W A := λ ws, (Normal (f (disk ws)), ws).

Definition modifyDisk (f : Disk → Disk) : W unit := λ ws,
  (Normal tt, mkWorkspace (extension ws) (f (disk ws)) (notices ws)).

(** [fs.mkdirSync(vscodeDir, { recursive: true })]. *)
Definition mkdirSync (answers : Answers) : W unit :=
  match mkdirError answers with
  | Some message => throwW (ThrowValue message)
  | None => modifyDisk (λ d, mkDisk true (commandsFile d))
  end.

(** [fs.readFileSync(templatePath, "utf8")]. *)
Definition readFileSync (answers : Answers) : W string :=
  match templateRead answers with
  | inl content => mret content
  | inr message => throwW (ThrowValue message)
  end.

(** [fs.writeFileSync(commandsPath, content)]. *)
Definition writeFileSync (answers : Answers) (content : string) : W unit :=
  match writeError answers with
  | Some message => throwW (ThrowValue message)
  | None => modifyDisk (λ d, mkDisk (vscodeDirExists d) (Some content))
  end.

(** [await vscode.window.showWarningMessage(message, ...items)]. *)
Definition showWarningMessage (answers : Answers) (message : string)
    (items : list string) : W (option string) :=
  notice (ShowWarningMessage message items) ;; mret (overwriteChoice answers).

(** The first statement of [reloadCommands]: the entry that the cache holds
    under [commandsPath] itself, if there is one, is deleted. *)
Definition evictCommands (commandsPath : option string)
    (cache : gmap string ModuleValue) : gmap string ModuleValue :=
  match commandsPath with
  | Some path => if decide (is_Some (cache !! path)) then delete path cache else cache
  | None => cache
  end.

(** [require(commandsPath)] on a cache: the module that the cache holds
    under the resolved file name, and the evaluation of the file when it
    holds none. *)
Definition requireOn (answers : Answers) (cache : gmap string ModuleValue)
    (content : string) : Required :=
  match cache !! resolvedFilename answers with
  | Some m => RequireReturns m
  | None => evaluate answers content
  end.

(** The surroundings that a reload finds on a disk: the definitions file
    exists when the disk has it, and [require] answers from the cache after
    the deletion.  (Without the file [require] is not reached; it would not
    find the module.) *)
Definition envOn (env : Env) (answers : Answers) (d : Disk) : Env :=
  {| commandsFilePath := commandsFilePath env;
     fileExists := bool_decide (is_Some (commandsFile d));
     required :=
       match commandsFile d with
       | Some content =>
           requireOn answers
             (evictCommands (commandsFilePath env) (requireCache answers)) content
       | None => RequireThrows (ThrowValue "Cannot find module")
       end;
     activeTextEditor := activeTextEditor env |}.

Definition overwriteQuestion : string :=
  "custom-commander.js already exists. Do you want to overwrite it?".

(** [createCommandsFile()].  [commandsFilePath env] is the result of
    [getCommandsFilePath()]; the early [return]s are the branches that end
    in [mret tt]. *)
Definition createCommandsFile (env : Env) (answers : Answers) : W unit :=
  match commandsFilePath env with
  | None => inExtension (showErrorMessage "No workspace folder found")
  | Some commandsPath =>
      dirExists ← getsDisk vscodeDirExists;
      (if dirExists : bool then mret tt else mkdirSync answers) ;;
      existing ← getsDisk commandsFile;
      overwrite ←
        match existing with
        | Some _ =>
            choice ← showWarningMessage answers overwriteQuestion ["Yes"; "No"];
            mret (bool_decide (choice = Some "Yes"))
        | None => mret true
        end;
      if overwrite : bool then
        written ←
          tryCatchW
            (sampleContent ← readFileSync answers;
             writeFileSync answers sampleContent ;;
             mret true)
            (λ error,
               message ← inExtension (errorMessage error);
               inExtension
                 (showErrorMessage ("Error creating template file: " +:+ message)) ;;
               mret false);
        if written : bool then
          notice (OpenTextDocument commandsPath) ;;
          notice (ShowTextDocument commandsPath) ;;
          d ← getsDisk id;
          inExtension (reloadCommands (envOn env answers d) false)
        else mret tt
      else mret tt
  end.

(** The notice of the warning, when the definitions file exists. *)
Definition overwriteNotices (ws : Workspace) : list (nat * Notice) :=
  match commandsFile (disk ws) with
  | Some _ =>
      [(length (log (extension ws)), ShowWarningMessage overwriteQuestion ["Yes"; "No"])]
  | None => []
  end.

(** Whether the function goes on to write: the file is new, or the user
    chose [Yes]. *)
Definition mayWrite (answers : Answers) (ws : Workspace) : Prop :=
  commandsFile (disk ws) = None ∨ overwriteChoice answers = Some "Yes".

(** Whether the [.vscode] directory is there once it is needed. *)
Definition dirReady (answers : Answers) (ws : Workspace) : Prop :=
  vscodeDirExists (disk ws) = true ∨ mkdirError answers = None.

(** * Properties *)

(** ** Arrays: [indexOf] and the stable sort *)

Section array_facts.
Context {A : Type} `{EqDecision A}.
Implicit Types (l : list A) (x y : A).

Lemma indexOf_lower l x : -1 ≤ JsArray.indexOf l x.
Proof. induction l as [|y l IH]; simpl; repeat case_decide; lia. Qed.

Lemma indexOf_absent l x : JsArray.indexOf l x = -1 ↔ x ∉ l.
Proof.
  induction l as [|y l IH]; simpl.
  - split; [intros _; apply not_elem_of_nil | done].
  - rewrite not_elem_of_cons. pose proof (indexOf_lower l x).
    destruct (decide (y = x)) as [->|Hne].
    + split; [lia | by intros [? _]].
    + case_decide as Hi.
      * split; [intros _; split; [congruence | by apply IH] | done].
      * split; [lia|]. intros [_ Hx]. by apply IH in Hx.
Qed.

Lemma indexOf_present l x : JsArray.indexOf l x ≠ -1 ↔ x ∈ l.
Proof.
  rewrite indexOf_absent. split; [|by intros ? []].
  intros ?. by destruct (decide (x ∈ l)).
Qed.

Lemma indexOf_lookup l x :
  x ∈ l → 0 ≤ JsArray.indexOf l x ∧ l !! Z.to_nat (JsArray.indexOf l x) = Some x.
Proof.
  induction l as [|y l IH]; [by intros ?%elem_of_nil|].
  intros Hin. simpl. destruct (decide (y = x)) as [->|Hne]; [done|].
  apply elem_of_cons in Hin as [->|Hin]; [done|].
  destruct (IH Hin) as [Hge Hl]. case_decide; [lia|].
  split; [lia|]. by rewrite Z.add_1_r, Z2Nat.inj_succ.
Qed.

Lemma indexOf_inj l x y :
  x ∈ l → JsArray.indexOf l x = JsArray.indexOf l y → x = y.
Proof.
  intros Hx Heq. assert (y ∈ l) as Hy.
  { apply indexOf_present. rewrite <-Heq. by apply indexOf_present. }
  destruct (indexOf_lookup l x Hx) as [_ H1].
  destruct (indexOf_lookup l y Hy) as [_ H2]. congruence.
Qed.

Lemma filter_all (P : A → Prop) `{∀ x, Decision (P x)} l :
  Forall P l → filter P l = l.
Proof.
  induction 1 as [|x l Hx _ IH]; [done|]. by rewrite filter_cons_True, IH.
Qed.

Lemma filter_none (P : A → Prop) `{∀ x, Decision (P x)} l :
  Forall (λ x, ¬ P x) l → filter P l = [].
Proof.
  induction 1 as [|x l Hx _ IH]; [done|]. by rewrite filter_cons_False.
Qed.

Lemma insert_Permutation (cmp : A → A → Z) x l : JsArray.insert cmp x l ≡ₚ x :: l.
Proof.
  induction l as [|y l IH]; simpl; [done|].
  case_decide; [done|]. rewrite IH. apply perm_swap.
Qed.

Lemma sort_Permutation (cmp : A → A → Z) l : JsArray.sort cmp l ≡ₚ l.
Proof.
  induction l as [|x l IH]; simpl; [done|].
  by rewrite insert_Permutation, IH.
Qed.

End array_facts.

(** ** Registration order *)

Section recency_order.
Variable recent : list string.
Implicit Types (a b k : string) (keys : list string).

Let cmp := compareByRecency recent.
Let idx := JsArray.indexOf recent.

Lemma compare_present a b : a ∈ recent → b ∈ recent → cmp a b = idx a - idx b.
Proof.
  intros Ha%indexOf_present Hb%indexOf_present. unfold cmp, compareByRecency.
  by rewrite !bool_decide_eq_true_2.
Qed.

Lemma compare_present_absent a b : a ∈ recent → b ∉ recent → cmp a b = -1.
Proof.
  intros Ha%indexOf_present Hb%indexOf_absent. unfold cmp, compareByRecency.
  rewrite (bool_decide_eq_true_2 _ Ha), bool_decide_eq_false_2; [done|].
  by intros [].
Qed.

Lemma compare_absent_present a b : a ∉ recent → b ∈ recent → cmp a b = 1.
Proof.
  intros Ha%indexOf_absent Hb%indexOf_present. unfold cmp, compareByRecency.
  rewrite (bool_decide_eq_true_2 _ Hb), bool_decide_eq_false_2; [done|].
  by intros [].
Qed.

Lemma compare_absent a b : a ∉ recent → b ∉ recent → cmp a b = 0.
Proof.
  intros Ha%indexOf_absent Hb%indexOf_absent. unfold cmp, compareByRecency.
  rewrite !bool_decide_eq_false_2; [done| |]; by intros [].
Qed.

(** An id that was never used goes behind every used id and in front of
    the unused ids that followed it. *)
Lemma insert_absent k used unused :
  k ∉ recent → Forall (.∈ recent) used → Forall (.∉ recent) unused →
  JsArray.insert cmp k (used ++ unused) = used ++ k :: unused.
Proof.
  intros Hk Hused Hunused. induction Hused as [|y used Hy _ IH]; simpl.
  - destruct Hunused as [|y unused Hy _]; simpl; [done|].
    by rewrite (compare_absent k y), decide_True.
  - rewrite (compare_absent_present k y), decide_False by (done || lia).
    by rewrite IH.
Qed.

(** A used id is placed among the used ids. *)
Lemma insert_present k used unused :
  k ∈ recent → Forall (.∉ recent) unused →
  JsArray.insert cmp k (used ++ unused) = JsArray.insert cmp k used ++ unused.
Proof.
  intros Hk Hunused. induction used as [|y used IH]; simpl.
  - destruct Hunused as [|y unused Hy _]; simpl; [done|].
    by rewrite (compare_present_absent k y), decide_True.
  - case_decide; [done|]. by rewrite IH.
Qed.

Lemma sort_partition keys :
  JsArray.sort cmp keys =
  JsArray.sort cmp (filter (.∈ recent) keys) ++ filter (.∉ recent) keys.
Proof.
  assert (∀ l, Forall (.∉ recent) (filter (.∉ recent) l)) as Hunused.
  { intros l. apply Forall_forall. by intros k [? _]%list_elem_of_filter. }
  induction keys as [|k keys IH]; simpl; [done|].
  rewrite IH. destruct (decide (k ∈ recent)) as [Hk|Hk].
  - rewrite (filter_cons_True _ k), (filter_cons_False _ k) by (done || by intros []).
    simpl. by apply insert_present.
  - rewrite (filter_cons_False _ k), (filter_cons_True _ k) by done.
    apply insert_absent; [done| |done].
    apply Forall_forall. intros a. rewrite sort_Permutation.
    by intros [? _]%list_elem_of_filter.
Qed.

Lemma insert_sorted k used :
  k ∈ recent → Forall (.∈ recent) used →
  StronglySorted (λ a b, idx a ≤ idx b) used →
  StronglySorted (λ a b, idx a ≤ idx b) (JsArray.insert cmp k used).
Proof.
  intros Hk Hused Hsorted.
  induction Hsorted as [|y used Hs IH Hy]; simpl; [repeat constructor|].
  apply Forall_cons in Hused as [Hyr Hused].
  rewrite (compare_present k y) by done. case_decide as Hle.
  - constructor; [by constructor|].
    constructor; [lia|]. eapply Forall_impl; [exact Hy|]. simpl. lia.
  - constructor; [by apply IH|].
    rewrite insert_Permutation. constructor; [lia|done].
Qed.

Lemma sort_sorted used :
  Forall (.∈ recent) used →
  StronglySorted (λ a b, idx a ≤ idx b) (JsArray.sort cmp used).
Proof.
  induction 1 as [|k used Hk Hused IH]; simpl; [constructor|].
  apply insert_sorted; [done| |done].
  apply Forall_forall. intros a Ha. rewrite sort_Permutation in Ha.
  by eapply (proj1 (Forall_forall _ _) Hused).
Qed.

Lemma filter_used_sort keys :
  filter (.∈ recent) (JsArray.sort cmp keys) = JsArray.sort cmp (filter (.∈ recent) keys).
Proof.
  rewrite (sort_partition keys) at 1. rewrite filter_app.
  rewrite (filter_none _ (filter _ keys)).
  - rewrite app_nil_r. apply filter_all, Forall_forall.
    intros a Ha. rewrite sort_Permutation in Ha.
    by apply list_elem_of_filter in Ha as [? _].
  - apply Forall_forall. by intros a [? _]%list_elem_of_filter.
Qed.

End recency_order.

(** *** The order in closed form, and why the choice of sort does not matter *)

Section sorted_facts.
Context {A : Type} `{EqDecision A}.
Implicit Types (l pre suf : list A) (x : A) (R : relation A).

Lemma StronglySorted_filter R (P : A → Prop) `{∀ x, Decision (P x)} l :
  StronglySorted R l → StronglySorted R (filter P l).
Proof.
  induction 1 as [|x l _ IH Hx]; [constructor|].
  rewrite filter_cons. case_decide; [|done]. constructor; [done|].
  apply Forall_forall. intros y [_ Hy]%list_elem_of_filter.
  by eapply Forall_forall in Hx.
Qed.

Lemma StronglySorted_weaken R R' l :
  (∀ x y, x ∈ l → y ∈ l → R x y → R' x y) →
  StronglySorted R l → StronglySorted R' l.
Proof.
  intros Himpl Hsorted. induction Hsorted as [|x l _ IH Hx]; [constructor|].
  constructor.
  - apply IH. intros y z Hy Hz. apply Himpl; by right.
  - apply Forall_forall. intros y Hy. apply Himpl; [by left|by right|].
    by eapply Forall_forall in Hx.
Qed.

(** A sorted list has the elements of a class that nothing precedes in
    front. *)
Lemma StronglySorted_partition R (P : A → Prop) `{∀ x, Decision (P x)} l :
  (∀ x y, ¬ P x → P y → ¬ R x y) →
  StronglySorted R l → l = filter P l ++ filter (λ x, ¬ P x) l.
Proof.
  intros Hclass. induction 1 as [|x l _ IH Hx]; [done|].
  destruct (decide (P x)) as [HP|HP].
  - rewrite (filter_cons_True _ x), (filter_cons_False _ x) by (done || tauto).
    simpl. by f_equal.
  - rewrite (filter_cons_False _ x), (filter_cons_True _ x) by done.
    assert (Forall (λ y, ¬ P y) l) as Hl.
    { eapply Forall_impl; [exact Hx|]. intros y Hxy Hy. by eapply Hclass. }
    by rewrite (filter_none P), (filter_all (λ y, ¬ P y)).
Qed.

Lemma indexOf_app_r pre l x :
  x ∉ pre →
  JsArray.indexOf (pre ++ l) x =
  if decide (JsArray.indexOf l x = -1) then -1
  else Z.of_nat (length pre) + JsArray.indexOf l x.
Proof.
  induction pre as [|y pre IH]; intros Hx.
  - simpl. case_decide; lia.
  - apply not_elem_of_cons in Hx as [Hne Hx]. cbn [app JsArray.indexOf length].
    rewrite decide_False by done. rewrite (IH Hx).
    pose proof (indexOf_lower l x). repeat case_decide; lia.
Qed.

(** In a list without repetition, [indexOf] grows along the list. *)
Lemma NoDup_sorted_indexOf pre suf :
  NoDup (pre ++ suf) →
  StronglySorted
    (λ a b, JsArray.indexOf (pre ++ suf) a ≤ JsArray.indexOf (pre ++ suf) b) suf.
Proof.
  revert pre. induction suf as [|x suf IH]; intros pre Hnd; [constructor|].
  constructor.
  - rewrite cons_middle, app_assoc. apply IH. by rewrite <-app_assoc.
  - apply NoDup_app in Hnd as (_ & Hpre & Hsuf).
    assert (x ∉ pre) as Hx by (intros ?; by eapply Hpre; [|left]).
    apply Forall_forall. intros y Hy.
    assert (y ∉ pre) as Hypre by (intros ?; by eapply Hpre; [|right]).
    rewrite !indexOf_app_r by done. cbn [JsArray.indexOf].
    pose proof (indexOf_lower suf y). apply indexOf_present in Hy.
    repeat case_decide; (lia || done).
Qed.

End sorted_facts.

Section order_closed_form.
Variables keys recent : list string.
Hypothesis NoDup_keys : NoDup keys.

Let idx := JsArray.indexOf recent.
Let used := JsArray.sort (compareByRecency recent) (filter (.∈ recent) keys).

Lemma used_unique (l : list string) :
  l ≡ₚ filter (.∈ recent) keys →
  StronglySorted (λ a b, idx a ≤ idx b) l → l = used.
Proof.
  intros Hperm Hsorted. apply (StronglySorted_unique_strong (λ a b, idx a ≤ idx b)).
  - intros a b Ha _ ??. apply (indexOf_inj recent); [|unfold idx in *; lia].
    rewrite Hperm in Ha. by apply list_elem_of_filter in Ha as [? _].
  - done.
  - apply sort_sorted, Forall_forall. by intros a [? _]%list_elem_of_filter.
  - unfold used. by rewrite sort_Permutation.
Qed.

(** The order is the recency list cut down to the ids that exist, followed
    by the ids that were never used, as the Map has them. *)
Lemma order_closed_form :
  NoDup recent →
  orderCommandIds keys recent = filter (.∈ keys) recent ++ filter (.∉ recent) keys.
Proof.
  intros Hrecent. unfold orderCommandIds. rewrite sort_partition. f_equal.
  symmetry. apply used_unique.
  - apply NoDup_Permutation; [by apply NoDup_filter..|].
    intros a. rewrite !list_elem_of_filter. tauto.
  - apply StronglySorted_filter, (NoDup_sorted_indexOf [] recent Hrecent).
Qed.

(** Any arrangement of the keys that is sorted by the comparator and keeps
    the ids that compare equal (those never used) in their order is the
    one of the embedding. *)
Lemma order_unique (l : list string) :
  l ≡ₚ keys →
  StronglySorted (λ a b, compareByRecency recent a b ≤ 0) l →
  filter (.∉ recent) l = filter (.∉ recent) keys →
  l = orderCommandIds keys recent.
Proof.
  intros Hperm Hsorted Hstable. unfold orderCommandIds. rewrite sort_partition.
  assert (l = filter (.∈ recent) l ++ filter (.∉ recent) l) as Hpart.
  { apply (StronglySorted_partition (λ a b, compareByRecency recent a b ≤ 0)); [|done].
    intros a b Ha Hb. rewrite (compare_absent_present recent a b) by done. lia. }
  rewrite Hpart, Hstable. f_equal. apply used_unique; [by rewrite Hperm|].
  pose proof (StronglySorted_filter _ (.∈ recent) l Hsorted) as Hused.
  eapply StronglySorted_weaken; [|exact Hused].
  intros a b [Ha _]%list_elem_of_filter [Hb _]%list_elem_of_filter.
  rewrite (compare_present recent a b) by done. unfold idx. lia.
Qed.

End order_closed_form.

(** ** The functions compute their summaries *)

Lemma forEach_dispose (ds : list Disposable) (st : State) :
  forEach ds dispose st =
  (Normal tt,
   set_hostCommands (filter (λ r, token r ∉ token <$> ds) (hostCommands st)) st).
Proof.
  revert st. induction ds as [|d ds IH]; intros st.
  - simpl. unfold mret, M_ret. f_equal. destruct st; unfold set_hostCommands; simpl.
    f_equal. symmetry. apply filter_all, Forall_forall. intros r _. apply not_elem_of_nil.
  - simpl. unfold mbind, M_bind, dispose, modify. rewrite IH.
    f_equal. destruct st; unfold set_hostCommands; simpl. f_equal.
    rewrite list_filter_filter. apply list_filter_iff. intros r.
    rewrite not_elem_of_cons. tauto.
Qed.

Lemma forEach_register (ids : list string) (st : State) :
  forEach ids (λ commandId,
    disposable ← registerCommand commandId (HExecute commandId);
    modify (λ st,
      set_customCommandDisposables (customCommandDisposables st ++ [disposable]) st)) st =
  (Normal tt,
   {| customCommands := customCommands st;
      customCommandDisposables :=
        customCommandDisposables st ++ freshDisposables (nextToken st) ids;
      userCommandsModule := userCommandsModule st;
      recentlyUsedCommands := recentlyUsedCommands st;
      hostCommands := hostCommands st ++ freshDisposables (nextToken st) ids;
      nextToken := nextToken st + length ids;
      log := log st |}).
Proof.
  revert st. induction ids as [|id ids IH]; intros st.
  - simpl. unfold mret, M_ret. destruct st; simpl.
    by rewrite !app_nil_r, Nat.add_0_r.
  - cbn [forEach]. unfold mbind at 1, M_bind at 1.
    unfold mbind, M_bind, registerCommand, modify. rewrite IH.
    destruct st; simpl. by rewrite <-!app_assoc, Nat.add_succ_r.
Qed.

Lemma length_freshDisposables n ids : length (freshDisposables n ids) = length ids.
Proof. revert n. induction ids as [|id ids IH]; intros n; simpl; [done|]. by rewrite IH. Qed.

Lemma registeredId_freshDisposables n ids : registeredId <$> freshDisposables n ids = ids.
Proof. revert n. induction ids as [|id ids IH]; intros n; simpl; [done|]. by rewrite IH. Qed.

Lemma token_freshDisposables n ids d :
  d ∈ freshDisposables n ids → (n ≤ token d < n + length ids)%nat.
Proof.
  revert n. induction ids as [|id ids IH]; intros n; simpl.
  - by intros ?%elem_of_nil.
  - intros [->|Hd%IH]%elem_of_cons; simpl; lia.
Qed.

Lemma registerCustomCommands_run (st : State) :
  registerCustomCommands st = (Normal tt, registered st).
Proof.
  unfold registerCustomCommands.
  unfold mbind at 1, M_bind at 1, gets at 1.
  unfold mbind at 1, M_bind at 1. rewrite forEach_dispose.
  unfold mbind at 1, M_bind at 1, modify at 1.
  unfold mbind at 1, M_bind at 1, gets at 1.
  unfold mbind at 1, M_bind at 1, gets at 1.
  unfold mbind at 1, M_bind at 1. rewrite forEach_register.
  unfold mbind, M_bind, registerCommand, modify, registered, pickerDisposable,
    orderedCommandIds, orderCommandIds.
  destruct st; simpl. by rewrite <-!app_assoc.
Qed.

Lemma forEach_entries (entries : list (string * Export)) (st : State) :
  forEach entries (λ '(funcName, value),
    match value with
    | ExportFunction f =>
        modify (λ st,
          set_customCommands
            (JsMap.set (customCommands st) (customCommandId funcName)
               {| func := f; meta := extractMetaFromFunction funcName (source f) |})
            st)
    | ExportOther => mret tt
    end) st =
  (Normal tt, set_customCommands (foldl loadEntry (customCommands st) entries) st).
Proof.
  revert st. induction entries as [|[funcName value] entries IH]; intros st.
  - simpl. unfold mret, M_ret. by destruct st.
  - cbn [forEach foldl]. unfold mbind, M_bind.
    destruct value as [f|]; unfold modify, mret, M_ret; rewrite IH; by destruct st.
Qed.

Lemma loadCustomCommands_run (env : Env) (st : State) :
  loadCustomCommands env st = (loadedCompletion (loaded env), afterLoad env st).
Proof.
  unfold loadCustomCommands, afterLoad, loaded.
  unfold mbind at 1, M_bind at 1, modify at 1.
  unfold mbind at 1, M_bind at 1, modify at 1.
  destruct (negb (bool_decide (is_Some (commandsFilePath env))) || negb (fileExists env)).
  { unfold mret, M_ret. destruct st; simpl. by rewrite app_nil_r. }
  unfold tryCatch, requireModule.
  unfold mbind at 1, M_bind at 1.
  destruct (required env) as [[n|message]|[n|entries]].
  - unfold throw, errorMessage, mbind, M_bind. destruct st; simpl. by rewrite app_nil_r.
  - unfold throw, errorMessage, mbind, M_bind, mret, M_ret, showErrorMessage, emit, modify.
    by destruct st.
  - unfold mret at 1, M_ret at 1.
    unfold mbind at 1, M_bind at 1, modify at 1.
    unfold mbind, M_bind, objectEntries, throw, errorMessage, Engine.cannotConvertToObject,
      mret, M_ret, showErrorMessage, emit, modify.
    by destruct st.
  - unfold mret at 1, M_ret at 1.
    unfold mbind at 1, M_bind at 1, modify at 1.
    unfold mbind at 1, M_bind at 1, objectEntries, mret at 1, M_ret at 1.
    rewrite forEach_entries. destruct st; simpl. by rewrite app_nil_r.
Qed.

Lemma reloadCommands_silent_run (env : Env) (st : State) :
  reloadCommands env true st =
  match loadedCompletion (loaded env) with
  | Normal _ => (Normal tt, registered (afterLoad env st))
  | Abrupt e => (Abrupt e, afterLoad env st)
  end.
Proof.
  unfold reloadCommands. unfold mbind at 1, M_bind at 1.
  rewrite loadCustomCommands_run. destruct (loadedCompletion (loaded env)) as [[]|e]; [|done].
  unfold mbind, M_bind. by rewrite registerCustomCommands_run.
Qed.

Lemma updateRecentlyUsedCommands_run (env : Env) (commandId : string) (st : State) :
  updateRecentlyUsedCommands env commandId st = (Normal tt, afterTouch env commandId st).
Proof.
  unfold updateRecentlyUsedCommands, afterTouch, afterSilentReload.
  unfold mbind, M_bind, modify, detached, tryCatch.
  rewrite reloadCommands_silent_run.
  by destruct (loadedCompletion (loaded env)) as [[]|e].
Qed.

(** ** Recency list *)

Lemma recentlyUsedCommands_afterTouch env commandId st :
  recentlyUsedCommands (afterTouch env commandId st) =
  touch (recentlyUsedCommands st) commandId.
Proof.
  unfold afterTouch, afterSilentReload.
  by destruct (loadedCompletion (loaded env)).
Qed.

Lemma indexOf_touch (recent : list string) (commandId : string) : JsArray.indexOf (touch recent commandId) commandId = 0.
Proof. unfold touch, JsArray.unshift. simpl. by rewrite decide_True. Qed.

(** Removing the first occurrence from a list without repetition removes
    the id. *)
Lemma splice_indexOf (recent : list string) (commandId : string) :
  NoDup recent → commandId ∈ recent →
  JsArray.splice1 recent (JsArray.indexOf recent commandId) = filter (.≠ commandId) recent.
Proof.
  unfold JsArray.splice1. induction 1 as [|y recent Hy Hnd IH]; [by intros ?%elem_of_nil|].
  intros Hin. simpl. destruct (decide (y = commandId)) as [->|Hne].
  - simpl. rewrite filter_cons_False by (by intros []).
    symmetry. apply filter_all, Forall_forall. by intros a Ha ->.
  - apply elem_of_cons in Hin as [->|Hin]; [done|].
    destruct (indexOf_lookup recent commandId Hin) as [Hge _].
    rewrite decide_False by lia.
    rewrite Z.add_1_r, Z2Nat.inj_succ by done. simpl.
    by rewrite filter_cons_True, IH.
Qed.

Lemma touch_filter (recent : list string) (commandId : string) :
  NoDup recent → touch recent commandId = commandId :: filter (.≠ commandId) recent.
Proof.
  intros Hnd. unfold touch, JsArray.unshift. f_equal.
  pose proof (indexOf_lower recent commandId).
  case_decide as Hi.
  - apply splice_indexOf; [done|]. apply indexOf_present. lia.
  - symmetry. apply filter_all, Forall_forall. intros a Ha ->.
    apply indexOf_present in Ha. lia.
Qed.

Lemma NoDup_touch (recent : list string) (commandId : string) : NoDup recent → NoDup (touch recent commandId).
Proof.
  intros Hnd. rewrite touch_filter by done. constructor.
  - by intros [? _]%list_elem_of_filter.
  - by apply NoDup_filter.
Qed.

Lemma remove_dups_snoc (history : list string) (commandId : string) :
  remove_dups (history ++ [commandId]) =
  filter (.≠ commandId) (remove_dups history) ++ [commandId].
Proof.
  induction history as [|x history IH]; [done|]. simpl.
  destruct (decide_rel _ x (history ++ [commandId])) as [Hin|Hin],
           (decide_rel _ x history) as [Hx|Hx].
  - done.
  - apply elem_of_app in Hin as [?|Heq%list_elem_of_singleton]; [done|subst x].
    by rewrite filter_cons_False by (by intros []).
  - destruct Hin. apply elem_of_app. by left.
  - rewrite filter_cons_True, IH; [done|].
    intros ->. destruct Hin. apply elem_of_app. right. by left.
Qed.

Lemma foldl_touch (history : list string) :
  foldl touch [] history = mostRecentFirst history.
Proof.
  unfold mostRecentFirst.
  induction history as [|commandId history IH] using rev_ind; [done|].
  rewrite foldl_snoc, IH, remove_dups_snoc, reverse_snoc, <-filter_reverse.
  apply touch_filter. rewrite reverse_Permutation. apply NoDup_remove_dups.
Qed.

Lemma recentlyUsedCommands_touches (steps : list (Env * string)) (st : State) :
  recentlyUsedCommands (touches steps st) = foldl touch (recentlyUsedCommands st) steps.*2.
Proof.
  unfold touches. revert st. induction steps as [|[env commandId] steps IH]; intros st; [done|].
  cbn [foldl fmap list_fmap]. rewrite IH, updateRecentlyUsedCommands_run.
  cbn [snd fst]. by rewrite recentlyUsedCommands_afterTouch.
Qed.

Lemma lastUse_lower (history : list string) (commandId : string) :
  -1 ≤ lastUse history commandId.
Proof. induction history as [|id history IH]; simpl; repeat case_decide; lia. Qed.

Lemma lastUse_used (history : list string) (commandId : string) :
  commandId ∈ history → 0 ≤ lastUse history commandId.
Proof.
  induction history as [|id history IH]; [by intros ?%elem_of_nil|].
  pose proof (lastUse_lower history commandId).
  intros [->|Hin%IH]%elem_of_cons; simpl; repeat case_decide; (lia || done).
Qed.

Lemma lastUse_unused (history : list string) (commandId : string) :
  commandId ∉ history → lastUse history commandId = -1.
Proof.
  induction history as [|id history IH]; [done|].
  intros [Hne Hin%IH]%not_elem_of_cons. simpl. rewrite Hin.
  repeat case_decide; congruence.
Qed.

(** The recency list is in decreasing order of last use. *)
Lemma mostRecentFirst_sorted (history : list string) :
  StronglySorted (λ a b, lastUse history b < lastUse history a) (mostRecentFirst history).
Proof.
  unfold mostRecentFirst. induction history as [|id history IH]; [constructor|].
  assert (StronglySorted (λ a b, lastUse (id :: history) b < lastUse (id :: history) a)
            (reverse (remove_dups history))) as Hrest.
  { eapply StronglySorted_weaken; [|exact IH].
    intros a b Ha Hb. rewrite !elem_of_reverse, !elem_of_remove_dups in Ha, Hb.
    apply lastUse_used in Ha, Hb. simpl. repeat case_decide; lia. }
  cbn [remove_dups]. destruct (decide_rel _ id history) as [Hin|Hin]; [done|].
  rewrite reverse_cons. apply StronglySorted_app; split; [|split; [done|repeat constructor]].
  intros a b Ha ->%list_elem_of_singleton.
  rewrite elem_of_reverse, elem_of_remove_dups in Ha. apply lastUse_used in Ha.
  simpl. rewrite (lastUse_unused history id Hin).
  rewrite (decide_True (P := -1 = -1)), (decide_True (P := id = id)) by done.
  repeat case_decide; lia.
Qed.

(** C4.  Whatever uses came before, after [updateRecentlyUsedCommands(id)]
    the id is at index 0 of the recency list and the list holds no id
    twice; it holds the ids used so far, most recent first: in decreasing
    order of the time of their last use. *)
Theorem touch_moves_to_front (steps : list (Env * string)) (env : Env) (commandId : string) :
  let st := touches steps initialState in
  let st' := (updateRecentlyUsedCommands env commandId st).2 in
  let history := steps.*2 ++ [commandId] in
  JsArray.indexOf (recentlyUsedCommands st') commandId = 0
  ∧ NoDup (recentlyUsedCommands st')
  ∧ (∀ id, id ∈ recentlyUsedCommands st' ↔ id ∈ history)
  ∧ StronglySorted (λ a b, lastUse history b < lastUse history a)
      (recentlyUsedCommands st')
  ∧ recentlyUsedCommands st' = mostRecentFirst history.
Proof.
  intros st st' history.
  assert (recentlyUsedCommands st' = mostRecentFirst history) as Hlist.
  { unfold st', st, history.
    rewrite updateRecentlyUsedCommands_run. cbn [snd].
    rewrite recentlyUsedCommands_afterTouch, recentlyUsedCommands_touches.
    by rewrite <-foldl_touch, foldl_snoc. }
  split; [|split; [|split; [|split; [|done]]]].
  - unfold st'. rewrite updateRecentlyUsedCommands_run. cbn [snd].
    rewrite recentlyUsedCommands_afterTouch. apply indexOf_touch.
  - rewrite Hlist. unfold mostRecentFirst.
    rewrite reverse_Permutation. apply NoDup_remove_dups.
  - intros id. rewrite Hlist. unfold mostRecentFirst.
    by rewrite elem_of_reverse, elem_of_remove_dups.
  - rewrite Hlist. apply mostRecentFirst_sorted.
Qed.

(** ** Registration *)

(** C1.  [registerCustomCommands] registers the commands in the order
    [orderedCommandIds], the picker last.  That order is a rearrangement of
    the Map keys in which the ids of the recency list come first, by
    ascending index in that list, and the other ids follow in the order the
    Map has them; when neither list repeats an id, it is the recency list
    cut down to the keys, followed by the keys that are not in it.  With
    keys A, B, C and recency list C, A it is C, A, B. *)
Theorem registration_order (st : State) :
  let recent := recentlyUsedCommands st in
  let keys := JsMap.keys (customCommands st) in
  let ids := orderedCommandIds st in
  registeredId <$> customCommandDisposables (registerCustomCommands st).2
    = ids ++ [pickerCommandId]
  ∧ ids = filter (.∈ recent) ids ++ filter (.∉ recent) keys
  ∧ ids ≡ₚ keys
  ∧ StronglySorted (λ a b, JsArray.indexOf recent a ≤ JsArray.indexOf recent b)
      (filter (.∈ recent) ids)
  ∧ (NoDup keys → NoDup recent →
     ids = filter (.∈ keys) recent ++ filter (.∉ recent) keys)
  ∧ orderCommandIds ["A"; "B"; "C"] ["C"; "A"] = ["C"; "A"; "B"].
Proof.
  intros recent keys ids. split; [|split; [|split; [|split; [|split]]]].
  - rewrite registerCustomCommands_run. simpl.
    by rewrite fmap_app, registeredId_freshDisposables.
  - unfold ids, orderedCommandIds, orderCommandIds. fold recent keys.
    rewrite filter_used_sort. apply sort_partition.
  - apply sort_Permutation.
  - unfold ids, orderedCommandIds, orderCommandIds. fold recent keys.
    rewrite filter_used_sort. apply sort_sorted, Forall_forall.
    by intros a [? _]%list_elem_of_filter.
  - apply order_closed_form.
  - reflexivity.
Qed.

Lemma tokensIssued_initial : tokensIssued initialState.
Proof. constructor. Qed.

Lemma tokensIssued_registered (st : State) : tokensIssued st → tokensIssued (registered st).
Proof.
  unfold tokensIssued, registered. cbn [hostCommands customCommandDisposables nextToken].
  rewrite !Forall_app. intros [Hhost _].
  assert (Forall (λ d, (token d < S (nextToken st + length (orderedCommandIds st)))%nat)
            (freshDisposables (nextToken st) (orderedCommandIds st) ++ [pickerDisposable st]))
    as Hnew.
  { apply Forall_app. split.
    - apply Forall_forall. intros d Hd%token_freshDisposables. lia.
    - repeat constructor. }
  apply Forall_app in Hnew. split; [split|]; [|done..].
  apply Forall_forall. intros d [_ Hd]%list_elem_of_filter.
  eapply Forall_forall in Hhost; [|done]. simpl in Hhost. lia.
Qed.

Lemma get_None {V} (m : JsMap.t V) (k : string) : JsMap.get m k = None ↔ k ∉ JsMap.keys m.
Proof.
  unfold JsMap.keys. induction m as [|[k' v] m IH]; simpl.
  - split; [intros _; apply not_elem_of_nil|done].
  - rewrite not_elem_of_cons. destruct (decide (k' = k)) as [->|Hne].
    + split; [done | by intros [? _]].
    + rewrite IH. split; [intros ?; split; [congruence|done] | by intros [_ ?]].
Qed.

Lemma pickCustomCommand_empty (env : Env) (ids : list string) (choice : option nat)
    (st : State) :
  customCommands st = [] →
  pickCustomCommand env ids choice st =
  (Normal tt,
   set_log
     (log st ++ ShowQuickPick [createItem] emptyPlaceHolder ::
        match choice with Some 0%nat => [CreateCommandsFile] | _ => [] end)
     st).
Proof.
  intros Hnil. unfold pickCustomCommand.
  unfold mbind at 1, M_bind at 1, gets at 1. rewrite Hnil. cbn [JsMap.size length].
  rewrite decide_True by done.
  unfold mbind at 1, M_bind at 1, emit at 1, modify at 1.
  destruct choice as [[|n]|]; cbn [mbind option_bind lookup list_lookup].
  - cbn [commandId createItem]. rewrite decide_True by done.
    unfold emit, modify, set_log. cbn. by rewrite <-app_assoc.
  - by destruct n.
  - done.
Qed.

(** C5.  Whatever the command set, [registerCustomCommands] ends with the
    registration of the picker command; the registry then holds one
    registration per command and the picker, all of them active, and (the
    tokens in use being the host's) none of its earlier registrations is.
    When the command set is empty the picker is the only registration, and
    invoking it offers the single choice of creating a commands file. *)
Theorem picker_always_registered (st : State) :
  let st' := (registerCustomCommands st).2 in
  let picker := pickerDisposable st in
  registeredId picker = pickerCommandId
  ∧ last (customCommandDisposables st') = Some picker
  ∧ length (customCommandDisposables st') = S (JsMap.size (customCommands st))
  ∧ (∀ d, d ∈ customCommandDisposables st' → d ∈ hostCommands st')
  ∧ (tokensIssued st → ∀ d, d ∈ customCommandDisposables st → d ∉ hostCommands st')
  ∧ (JsMap.size (customCommands st) = 0%nat →
       customCommandDisposables st' = [picker]
       ∧ ∀ env choice,
           invoke env picker choice st' =
           (Normal tt,
            set_log
              (log st' ++ ShowQuickPick [createItem] emptyPlaceHolder ::
                 match choice with Some 0%nat => [CreateCommandsFile] | _ => [] end)
              st')).
Proof.
  intros st' picker. unfold st'. rewrite registerCustomCommands_run. cbn [snd].
  assert (length (orderedCommandIds st) = JsMap.size (customCommands st)) as Hlen.
  { unfold orderedCommandIds, orderCommandIds, JsMap.size, JsMap.keys.
    by rewrite sort_Permutation, length_fmap. }
  split; [done|]. split; [|split; [|split; [|split]]].
  - cbn [registered customCommandDisposables]. by rewrite last_snoc.
  - cbn [registered customCommandDisposables].
    rewrite length_app, length_freshDisposables, Hlen. simpl. lia.
  - intros d Hd. cbn [registered customCommandDisposables hostCommands] in *.
    apply elem_of_app. by right.
  - intros Hissued d Hd. cbn [registered hostCommands].
    apply Forall_app in Hissued as [_ Hold].
    eapply Forall_forall in Hold; [|done]. simpl in Hold.
    intros [Hin|[Hin|Hin]%elem_of_app]%elem_of_app.
    + apply list_elem_of_filter in Hin as [Hin _]. apply Hin.
      by apply list_elem_of_fmap_2.
    + apply token_freshDisposables in Hin. lia.
    + apply list_elem_of_singleton in Hin. subst d. simpl in Hold. lia.
  - intros Hsize.
    assert (customCommands st = []) as Hnil by (by apply nil_length_inv).
    assert (orderedCommandIds st = []) as Hids.
    { apply nil_length_inv. by rewrite Hlen. }
    split.
    + cbn [registered customCommandDisposables]. by rewrite Hids.
    + intros env choice. unfold invoke, picker, pickerDisposable. cbn [handler].
      by apply pickCustomCommand_empty.
Qed.

(** The sample extension after its definitions file is deleted: the two
    command registrations of the activation are disposed of, the picker is
    registered anew and is alone beside the built-in commands. *)
Lemma picker_always_registered_witness :
  tokensIssued clearedState
  ∧ JsMap.size (customCommands clearedState) = 0%nat
  ∧ customCommandDisposables (registerCustomCommands clearedState).2 =
      [pickerDisposable clearedState]
  ∧ hostCommands (registerCustomCommands clearedState).2 =
      [mkDisposable 0 "custom-commander.createCommandsFile" HCreateCommandsFile;
       mkDisposable 1 "custom-commander.reloadCommands" HReloadCommands;
       pickerDisposable clearedState]
  ∧ Forall (λ d, d ∉ hostCommands (registerCustomCommands clearedState).2)
      (customCommandDisposables clearedState).
Proof.
  assert (tokensIssued clearedState) as Hissued.
  { apply (bool_decide_unpack _). vm_compute. exact I. }
  destruct (picker_always_registered clearedState) as (_ & _ & _ & _ & Hold & Hempty).
  split; [exact Hissued|]. split; [reflexivity|].
  split; [exact (proj1 (Hempty eq_refl))|]. split; [reflexivity|].
  apply Forall_forall. exact (Hold Hissued).
Defined.

(** ** Execution *)

Lemma log_afterTouch (env : Env) (commandId : string) (st : State) :
  log (afterTouch env commandId st) = log st ++ silentReloadEvents env.
Proof.
  unfold afterTouch, afterSilentReload, silentReloadEvents.
  destruct (loadedCompletion (loaded env)); cbn.
  - by rewrite app_nil_r.
  - by rewrite app_assoc.
Qed.

Lemma silentReloadEvents_no_action (env : Env) :
  Forall (λ e, isAction e = false) (silentReloadEvents env).
Proof.
  unfold silentReloadEvents, loaded.
  destruct (negb _ || negb _); [by constructor|].
  destruct (required env) as [[n|message]|[n|entries]]; cbn; by repeat constructor.
Qed.

Lemma executeCustomCommand_found (env : Env) (commandId : string) (st : State)
    (command : Command) :
  JsMap.get (customCommands st) commandId = Some command →
  let st1 := afterTouch env commandId st in
  let end_ := settled env command (call (func command) (activeTextEditor env)) in
  executeCustomCommand env commandId st = (end_.1, set_log (log st1 ++ end_.2) st1).
Proof.
  intros Hget st1 end_. unfold executeCustomCommand.
  unfold mbind at 1, M_bind at 1, gets at 1. rewrite Hget.
  unfold mbind at 1, M_bind at 1. rewrite updateRecentlyUsedCommands_run. fold st1.
  unfold end_, settled, tryCatch.
  destruct (call (func command) (activeTextEditor env))
    as [[| |popup replace clipboard]|[n|message]].
  - unfold mret, M_ret. cbn. destruct st1; cbn. by rewrite app_nil_r.
  - by unfold throw, errorMessage, mbind, M_bind, mret, M_ret, showErrorMessage, emit, modify.
  - unfold fieldEvents, whenDefined.
    destruct popup, replace, clipboard, (activeTextEditor env);
      unfold mbind, M_bind, mret, M_ret, emit, modify; destruct st1; cbn;
      by rewrite <-?app_assoc, ?app_nil_r.
  - unfold throw, errorMessage, mbind, M_bind. destruct st1; cbn. by rewrite app_nil_r.
  - by unfold throw, errorMessage, mbind, M_bind, mret, M_ret, showErrorMessage, emit, modify.
Qed.

(** C7.  For an id that is no key of [customCommands], the executor shows
    the error [Custom command not found] and returns: this one
    notification is all that changes, so the recency list is as it was
    and no message of a result, replacement or clipboard write happens. *)
Theorem execute_unknown_command (env : Env) (commandId : string) (st : State) :
  commandId ∉ JsMap.keys (customCommands st) →
  let st' := (executeCustomCommand env commandId st).2 in
  executeCustomCommand env commandId st =
    (Normal tt, set_log (log st ++ [ShowErrorMessage "Custom command not found"]) st)
  ∧ recentlyUsedCommands st' = recentlyUsedCommands st
  ∧ customCommands st' = customCommands st
  ∧ hostCommands st' = hostCommands st
  ∧ filter (λ e, isAction e = true) (log st') = filter (λ e, isAction e = true) (log st).
Proof.
  intros Hget%get_None st'.
  assert (executeCustomCommand env commandId st =
          (Normal tt, set_log (log st ++ [ShowErrorMessage "Custom command not found"]) st))
    as Hrun.
  { unfold executeCustomCommand. unfold mbind, M_bind, gets. by rewrite Hget. }
  split; [done|]. unfold st'. rewrite Hrun. cbn.
  repeat split. by rewrite filter_app, app_nil_r.
Qed.

Lemma execute_unknown_command_witness :
  ("custom-commander.custom.gone" ∉
     JsMap.keys (customCommands (sampleState (Resolves ResultUndefined))))
  ∧ recentlyUsedCommands
      (executeCustomCommand (sampleEnv (Resolves ResultUndefined))
         "custom-commander.custom.gone" (sampleState (Resolves ResultUndefined))).2 = [].
Proof.
  assert ("custom-commander.custom.gone" ∉
            JsMap.keys (customCommands (sampleState (Resolves ResultUndefined)))) as Hgone.
  { apply (bool_decide_unpack _). vm_compute. exact I. }
  split; [exact Hgone|].
  exact (proj1 (proj2 (execute_unknown_command _ _ _ Hgone))).
Defined.

(** C9.  When the callable of a registered command resolves with an object
    whose only property is [clipboard], the executor writes that text to
    the clipboard and confirms it in the status bar with its first 20
    characters; after the reload of the recency update these are the only
    events, so no information message is shown and no text is replaced.
    For [{ clipboard: "abc" }] the clipboard receives [abc]. *)
Theorem execute_clipboard_only (env : Env) (commandId : string) (st : State)
    (command : Command) (text : string) :
  JsMap.get (customCommands st) commandId = Some command →
  call (func command) (activeTextEditor env) =
    Resolves (ResultFields None None (Some text)) →
  let run := executeCustomCommand env commandId st in
  run.1 = Normal tt
  ∧ log run.2 =
      log st ++ silentReloadEvents env ++
      [ClipboardWriteText text;
       SetStatusBarMessage ("Copied to clipboard: " +:+ JsString.take 20 text)]
  ∧ filter (λ e, isAction e = true) (log run.2) =
      filter (λ e, isAction e = true) (log st) ++ [ClipboardWriteText text].
Proof.
  intros Hget Hcall run. unfold run.
  rewrite (executeCustomCommand_found _ _ _ _ Hget), Hcall. cbn [settled fst snd fieldEvents].
  split; [done|]. cbn [set_log log app]. rewrite log_afterTouch, <-app_assoc.
  split; [done|]. rewrite !filter_app.
  rewrite (filter_none _ (silentReloadEvents env)).
  - done.
  - eapply Forall_impl; [apply silentReloadEvents_no_action|].
    intros e He. by rewrite He.
Qed.

Lemma execute_clipboard_only_witness :
  let env := sampleEnv (Resolves (ResultFields None None (Some "abc"))) in
  let st := sampleState (Resolves (ResultFields None None (Some "abc"))) in
  JsMap.get (customCommands st) "custom-commander.custom.sample" =
    Some (sampleCommand (Resolves (ResultFields None None (Some "abc"))))
  ∧ log (executeCustomCommand env "custom-commander.custom.sample" st).2 =
      [ClipboardWriteText "abc"; SetStatusBarMessage "Copied to clipboard: abc"].
Proof.
  split; [reflexivity|].
  exact (proj1 (proj2 (execute_clipboard_only
    (sampleEnv (Resolves (ResultFields None None (Some "abc"))))
    "custom-commander.custom.sample"
    (sampleState (Resolves (ResultFields None None (Some "abc"))))
    (sampleCommand (Resolves (ResultFields None None (Some "abc")))) "abc"
    eq_refl eq_refl))).
Defined.

Lemma head_touch (recent : list string) (commandId : string) :
  head (touch recent commandId) = Some commandId.
Proof. done. Qed.

(** C10, as the code has it.  [undefined] is not the only result without
    side effect: the executor returns early for [undefined], and for a
    result none of whose three properties is defined (such as an empty
    object) every test fails, so that in both cases the call completes and
    adds no event to those of the reload.  [null] is no such value:
    destructuring it throws, the [catch] block runs and shows an error
    message that names the command, and that message is the only event
    after the reload.  Whatever the callable does, the recency update has
    happened before: the id is at the front of the list, and a list
    without repetition has become the id followed by the other ids in
    their order. *)
Theorem execute_null_result (env : Env) (commandId : string) (st : State)
    (command : Command) :
  JsMap.get (customCommands st) commandId = Some command →
  let run := executeCustomCommand env commandId st in
  let result := call (func command) (activeTextEditor env) in
  (result = Resolves ResultNull →
   run.1 = Normal tt
   ∧ log run.2 =
       log st ++ silentReloadEvents env ++
       [ShowErrorMessage
          (commandErrorText command
             (Engine.cannotDestructureText "popup" "result" JsNull))])
  ∧ (result = Resolves ResultUndefined ∨ result = Resolves (ResultFields None None None) →
     run.1 = Normal tt ∧ log run.2 = log st ++ silentReloadEvents env)
  ∧ recentlyUsedCommands run.2 = touch (recentlyUsedCommands st) commandId
  ∧ head (recentlyUsedCommands run.2) = Some commandId
  ∧ (NoDup (recentlyUsedCommands st) →
     recentlyUsedCommands run.2 =
       commandId :: filter (.≠ commandId) (recentlyUsedCommands st)).
Proof.
  intros Hget run result. unfold run.
  rewrite (executeCustomCommand_found _ _ _ _ Hget). fold result.
  split; [|split].
  - intros ->. cbn [settled fst snd]. split; [done|].
    cbn [set_log log]. by rewrite log_afterTouch, <-app_assoc.
  - intros [-> | ->]; cbn [settled fieldEvents fst snd app]; (split; [done|]);
      cbn [set_log log]; by rewrite app_nil_r, log_afterTouch.
  - assert (recentlyUsedCommands
              (set_log (log (afterTouch env commandId st) ++ (settled env command result).2)
                 (afterTouch env commandId st)) =
            touch (recentlyUsedCommands st) commandId) as Hrecent.
    { cbn [set_log recentlyUsedCommands]. apply recentlyUsedCommands_afterTouch. }
    cbn [snd]. rewrite Hrecent. split; [done|]. split; [apply head_touch|].
    apply touch_filter.
Qed.

Lemma execute_null_result_witness :
  let env := sampleEnv (Resolves ResultNull) in
  let st := sampleState (Resolves ResultNull) in
  JsMap.get (customCommands st) "custom-commander.custom.sample" =
    Some (sampleCommand (Resolves ResultNull))
  ∧ recentlyUsedCommands st = []
  ∧ recentlyUsedCommands (executeCustomCommand env "custom-commander.custom.sample" st).2 =
      ["custom-commander.custom.sample"]
  ∧ log (executeCustomCommand env "custom-commander.custom.sample" st).2 =
      [ShowErrorMessage
         ("Error in " +:+ JsString.dquote +:+ "Sample" +:+ JsString.dquote +:+
          ": Cannot destructure property 'popup' of 'result' as it is null.")].
Proof.
  pose proof (execute_null_result (sampleEnv (Resolves ResultNull))
    "custom-commander.custom.sample" (sampleState (Resolves ResultNull))
    (sampleCommand (Resolves ResultNull)) eq_refl) as (Hnull & _ & Hrecent & _).
  split; [reflexivity|]. split; [reflexivity|]. split.
  - exact Hrecent.
  - exact (proj2 (Hnull eq_refl)).
Defined.

(** C10 as the specification states it does not hold: a callable that
    resolves with an empty object, which is not [undefined], has no side
    effect either.  The executor completes and adds no event. *)
Lemma execute_empty_object_is_quiet :
  ResultFields None None None ≠ ResultUndefined
  ∧ (executeCustomCommand (sampleEnv (Resolves (ResultFields None None None)))
       "custom-commander.custom.sample"
       (sampleState (Resolves (ResultFields None None None)))).1 = Normal tt
  ∧ log (executeCustomCommand (sampleEnv (Resolves (ResultFields None None None)))
           "custom-commander.custom.sample"
           (sampleState (Resolves (ResultFields None None None)))).2 =
      log (sampleState (Resolves (ResultFields None None None))).
Proof. split; [done|]. split; by vm_compute. Qed.

(** The early return: a callable that resolves with [undefined] adds
    nothing to what the recency update did. *)
Lemma execute_undefined_result (env : Env) (commandId : string) (st : State)
    (command : Command) :
  JsMap.get (customCommands st) commandId = Some command →
  call (func command) (activeTextEditor env) = Resolves ResultUndefined →
  executeCustomCommand env commandId st = (Normal tt, afterTouch env commandId st).
Proof.
  intros Hget Hcall.
  rewrite (executeCustomCommand_found _ _ _ _ Hget), Hcall. cbn [settled fst snd].
  f_equal. destruct (afterTouch env commandId st); cbn. by rewrite app_nil_r.
Qed.

(** A callable that fails with a value other than [null] and [undefined]:
    the failure is reported under the name of the command, after the
    recency update, and nothing else happens. *)
Lemma execute_callable_fails (env : Env) (commandId : string) (st : State)
    (command : Command) (message : string) :
  JsMap.get (customCommands st) commandId = Some command →
  call (func command) (activeTextEditor env) = Rejects (ThrowValue message) →
  let run := executeCustomCommand env commandId st in
  run.1 = Normal tt
  ∧ recentlyUsedCommands run.2 = touch (recentlyUsedCommands st) commandId
  ∧ log run.2 =
      log st ++ silentReloadEvents env ++
      [ShowErrorMessage (commandErrorText command message)].
Proof.
  intros Hget Hcall run. unfold run.
  rewrite (executeCustomCommand_found _ _ _ _ Hget), Hcall. cbn [settled fst snd].
  split; [done|]. split.
  - cbn [set_log recentlyUsedCommands]. apply recentlyUsedCommands_afterTouch.
  - cbn [set_log log]. by rewrite log_afterTouch, <-app_assoc.
Qed.

(** C8 at a callable that rejects without a reason
    ([return Promise.reject()]).  The recency list is updated, but reading
    [error.message] in the [catch] block throws: the promise of the
    executor is rejected and no error message is shown. *)
Theorem execute_rejects_undefined :
  let outcome := Rejects (ThrowNullish JsUndefined) in
  let run :=
    executeCustomCommand (sampleEnv outcome) "custom-commander.custom.sample"
      (sampleState outcome) in
  JsMap.get (customCommands (sampleState outcome)) "custom-commander.custom.sample" =
    Some (sampleCommand outcome)
  ∧ run.1 = Abrupt (Engine.cannotReadProperty "message" JsUndefined)
  ∧ recentlyUsedCommands run.2 = ["custom-commander.custom.sample"]
  ∧ log run.2 = [].
Proof. repeat split. Qed.

(** ** Loading *)

(** A definitions file that fails with a value other than [null] and
    [undefined] (a [SyntaxError], a thrown [Error]): the failure is caught
    and reported, and no command is left. *)
Lemma load_failure_reported (env : Env) (st : State) (message : string) :
  is_Some (commandsFilePath env) → fileExists env = true →
  required env = RequireThrows (ThrowValue message) →
  let run := loadCustomCommands env st in
  run.1 = Normal tt
  ∧ customCommands run.2 = JsMap.empty
  ∧ log run.2 = log st ++ [ShowErrorMessage (loadErrorText message)].
Proof.
  intros Hpath Hfile Hreq run. unfold run. rewrite loadCustomCommands_run.
  unfold afterLoad, loaded.
  rewrite (bool_decide_eq_true_2 _ Hpath), Hfile, Hreq. by cbn.
Qed.

(** C6 at a definitions file whose evaluation ends in [throw null].  The
    command set is empty, but reading [error.message] in the [catch] block
    throws: [loadCustomCommands] ends abruptly and shows no notification. *)
Theorem load_throw_null_not_reported :
  let run := loadCustomCommands (throwingEnv (ThrowNullish JsNull)) initialState in
  run.1 = Abrupt (Engine.cannotReadProperty "message" JsNull)
  ∧ customCommands run.2 = JsMap.empty
  ∧ log run.2 = []
  ∧ (activate (throwingEnv (ThrowNullish JsNull)) initialState).1 =
      Abrupt (Engine.cannotReadProperty "message" JsNull).
Proof. repeat split. Qed.

(** ** Metadata *)

Lemma append_cons (c : ascii) (s t : string) : String c s +:+ t = String c (s +:+ t).
Proof. reflexivity. Qed.

Lemma startsWith_app (p t : string) : JsString.startsWith (p +:+ t) p = true.
Proof.
  induction p as [|c p IH]; [done|].
  rewrite append_cons. cbn [JsString.startsWith]. by rewrite decide_True.
Qed.

Lemma startsWith_drop (s p : string) :
  JsString.startsWith s p = true → s = p +:+ JsString.drop (String.length p) s.
Proof.
  revert s. induction p as [|c p IH]; intros s; [done|].
  destruct s as [|b s]; cbn [JsString.startsWith]; [done|].
  case_decide; [subst b|done]. intros Hp%IH.
  rewrite append_cons. cbn [String.length JsString.drop]. by f_equal.
Qed.

Lemma replace_startsWith (s p r : string) :
  JsString.startsWith s p = true →
  JsString.replace s p r = r +:+ JsString.drop (String.length p) s.
Proof. intros Hp. destruct s; cbn [JsString.replace]; by rewrite Hp. Qed.

Lemma split_go_nonempty (sep : string) (skip : nat) (s : string) :
  JsString.split_go sep skip s ≠ [].
Proof.
  revert skip. induction s as [|c s IH]; intros skip; [done|].
  cbn [JsString.split_go]. destruct skip as [|k]; [|apply IH].
  destruct (JsString.startsWith _ _); [done|].
  by destruct (JsString.split_go sep 0 s).
Qed.

(** The first piece of a split is what precedes the first occurrence of
    the separator. *)
Lemma split_head (sep s : string) :
  sep ≠ EmptyString → JsString.includes s sep = true →
  ∃ piece more tail,
    JsString.split s sep = piece :: more ∧ s = piece +:+ sep +:+ tail.
Proof.
  intros Hsep. unfold JsString.split. induction s as [|c s IH].
  - destruct sep; [by destruct Hsep|]. by cbn.
  - cbn [JsString.includes JsString.split_go].
    destruct (JsString.startsWith (String c s) sep) eqn:Hstart.
    + intros _. eexists EmptyString, _, _. split; [done|].
      by apply startsWith_drop.
    + rewrite orb_false_l. intros (piece & more & tail & -> & ->)%IH.
      by eexists (String c piece), more, tail.
Qed.

Lemma append_assoc (s t u : string) : (s +:+ t) +:+ u = s +:+ t +:+ u.
Proof. induction s as [|c s IH]; [done|]. rewrite !append_cons. by f_equal. Qed.

Lemma includes_after_prefix (rest : string) :
  JsString.includes (paramPrefix +:+ rest) ": " = JsString.includes rest ": ".
Proof. reflexivity. Qed.

(** A directive line whose key is [key] starts with the marker, the key, a
    colon and a space. *)
Lemma directive_key (key x : string) :
  JsString.startsWith x paramPrefix = true →
  JsString.includes x ": " = true →
  default "undefined"
    (JsString.split (JsString.replace x paramPrefix EmptyString) ": " !! 0%nat) = key →
  JsString.startsWith x (paramPrefix +:+ key +:+ ": ") = true.
Proof.
  intros Hprefix Hincl. rewrite (replace_startsWith _ _ _ Hprefix).
  apply startsWith_drop in Hprefix. set (rest := JsString.drop _ x) in *.
  rewrite Hprefix, includes_after_prefix in Hincl.
  destruct (split_head ": " rest) as (piece & more & tail & Hsplit & Hrest); [done..|].
  change (EmptyString +:+ rest) with rest. rewrite Hsplit. cbn. intros ->.
  rewrite Hprefix, Hrest, <-!append_assoc. apply startsWith_app.
Qed.

Lemma metaLines_key (key source : string) (parts : list string) :
  hasDirective key source = false →
  parts ∈ metaLines source → default "undefined" (parts !! 0%nat) ≠ key.
Proof.
  unfold hasDirective, metaLines. intros Hnone Hparts Hkey.
  apply list_elem_of_fmap in Hparts as (x & -> & Hx).
  apply list_elem_of_In, filter_In in Hx as [Hx [Hprefix Hincl]%andb_prop].
  apply list_elem_of_In, list_elem_of_fmap in Hx as (line & -> & Hline).
  pose proof (directive_key key _ Hprefix Hincl Hkey) as Hdirective.
  assert (existsb (directiveLine key) (JsString.split source JsString.newline) = true)
    as Hsome; [|congruence].
  apply existsb_exists. exists line. split; [by apply list_elem_of_In|done].
Qed.

Lemma foldl_metaStep_None (key : string) (lines : list (list string))
    (acc : gmap string (option string)) :
  acc !! key = None →
  Forall (λ parts, default "undefined" (parts !! 0%nat) ≠ key) lines →
  foldl metaStep acc lines !! key = None.
Proof.
  intros Hacc Hlines. revert acc Hacc.
  induction Hlines as [|parts lines Hne _ IH]; intros acc Hacc; [done|].
  cbn [foldl]. apply IH. unfold metaStep. by rewrite lookup_insert_ne.
Qed.

Lemma foundMeta_no_directive (key source : string) :
  hasDirective key source = false → foundMeta source !! key = None.
Proof.
  intros Hnone. apply foldl_metaStep_None; [done|].
  apply Forall_forall. intros parts. by apply metaLines_key.
Qed.

Lemma camelWords_nonempty (s : string) : camelWords s ≠ [].
Proof.
  induction s as [|c s IH]; [done|]. cbn [camelWords].
  destruct (startsUpper s); [done|]. by destruct (camelWords s).
Qed.

Lemma concat_cons_word (c : ascii) (word : string) (words : list string) :
  String.concat " " (String c word :: words) = String c (String.concat " " (word :: words)).
Proof. by destruct words. Qed.

(** The global replacement puts one space in front of every word but the
    first, and one in front of the first word when the identifier starts
    with an uppercase letter. *)
Lemma replaceUpperGlobal_words (s : string) :
  JsString.replaceUpperGlobal s =
  (if startsUpper s then " " else EmptyString) +:+ String.concat " " (camelWords s).
Proof.
  induction s as [|c s IH]; [done|].
  cbn [JsString.replaceUpperGlobal camelWords startsUpper]. rewrite IH.
  pose proof (camelWords_nonempty s) as Hwords.
  destruct (camelWords s) as [|word words]; [done|].
  destruct (JsString.isUpperAZ c), (startsUpper s); by rewrite ?concat_cons_word.
Qed.

Lemma replaceFirstUpper_capitalize (s : string) : JsString.replaceFirstUpper s = capitalize s.
Proof.
  destruct s as [|c s]; [done|]. unfold JsString.replaceFirstUpper, capitalize.
  destruct (JsString.isLineTerminator c) eqn:Hc; [|done]. f_equal.
  by destruct c as [[] [] [] [] [] [] [] []].
Qed.

Lemma orElse_None (d : string) : orElse (mjoin None) d = d.
Proof. done. Qed.

(** C2, as the code has it.  For an identifier and a source text of the
    ASCII range, the source text without a [name] directive and the
    identifier not starting with an uppercase letter, the derived name is
    the identifier cut into words in front of every uppercase letter, the
    words joined by spaces and the first character capitalised; without a
    [description] directive the description is [Execute], the name and
    [function].  Every letter of an uppercase run is a word of its own:
    [getNowFromAPI] gives [Get Now From A P I]. *)
Theorem derived_name_spaced_words (funcName source : string) :
  JsString.isAscii funcName = true →
  JsString.isAscii source = true →
  hasDirective "name" source = false →
  startsUpper funcName = false →
  name (extractMetaFromFunction funcName source) = spacedWords funcName
  ∧ (hasDirective "description" source = false →
     description (extractMetaFromFunction funcName source) =
       "Execute " +:+ spacedWords funcName +:+ " function")
  ∧ extractMetaFromFunction "getNowFromAPI" plainSource =
      {| name := "Get Now From A P I";
         description := "Execute Get Now From A P I function" |}.
Proof.
  intros _ _ Hname Hlower.
  assert (name (extractMetaFromFunction funcName source) = spacedWords funcName) as Heq.
  { unfold extractMetaFromFunction, spacedWords. cbn [name].
    rewrite (foundMeta_no_directive _ _ Hname), orElse_None.
    by rewrite replaceFirstUpper_capitalize, replaceUpperGlobal_words, Hlower. }
  split; [done|]. split; [|by vm_compute].
  intros Hdescription. rewrite <-Heq. unfold extractMetaFromFunction.
  cbn [name description]. by rewrite (foundMeta_no_directive _ _ Hdescription), orElse_None.
Qed.

Lemma derived_name_spaced_words_witness :
  JsString.isAscii "getNowFromAPI" = true
  ∧ JsString.isAscii plainSource = true
  ∧ hasDirective "name" plainSource = false
  ∧ startsUpper "getNowFromAPI" = false
  ∧ name (extractMetaFromFunction "getNowFromAPI" plainSource) = "Get Now From A P I".
Proof.
  split; [reflexivity|]. split; [reflexivity|]. split; [reflexivity|]. split; [reflexivity|].
  exact (proj1 (derived_name_spaced_words "getNowFromAPI" plainSource
                  eq_refl eq_refl eq_refl eq_refl)).
Defined.

(** The example of C2 as the specification states it does not hold. *)
Lemma derived_name_keeps_no_acronym :
  name (extractMetaFromFunction "getNowFromAPI" plainSource) = "Get Now From A P I"
  ∧ "Get Now From A P I" ≠ "Get Now From API"
  ∧ description (extractMetaFromFunction "getNowFromAPI" plainSource) ≠
      "Execute Get Now From API function".
Proof. split; [by vm_compute|]. split; by vm_compute. Qed.

(** The directives of the specification's example are honoured. *)
Lemma directives_override :
  extractMetaFromFunction "getNowFromAPI" directedSource =
  {| name := "Get Now"; description := "Fetch now." |}.
Proof. by vm_compute. Qed.

(** C3 at a [name] directive whose value holds a colon and a space: the
    value is cut at that place. *)
Theorem directive_value_cut_at_colon :
  hasDirective "name" colonSource = true
  ∧ name (extractMetaFromFunction "remind" colonSource) = "Note"
  ∧ name (extractMetaFromFunction "remind" colonSource) ≠ "Note: urgent".
Proof. split; [by vm_compute|]. split; by vm_compute. Qed.

(** ** Consistency of the reachable states *)

Lemma keys_set {V} (m : JsMap.t V) (k : string) (v : V) :
  JsMap.keys (JsMap.set m k v) =
  if decide (k ∈ JsMap.keys m) then JsMap.keys m else JsMap.keys m ++ [k].
Proof.
  unfold JsMap.keys. induction m as [|[k' v'] m IH]; [done|].
  cbn [JsMap.set fmap list_fmap fst]. destruct (decide (k' = k)) as [->|Hne].
  - cbn. by rewrite decide_True by left.
  - cbn [fmap list_fmap fst]. rewrite IH. case_decide as Hin.
    + by rewrite decide_True by (by right).
    + rewrite decide_False; [done|]. by intros [?|?]%elem_of_cons.
Qed.

Lemma NoDup_keys_set {V} (m : JsMap.t V) (k : string) (v : V) :
  NoDup (JsMap.keys m) → NoDup (JsMap.keys (JsMap.set m k v)).
Proof.
  intros Hnd. rewrite keys_set. case_decide as Hin; [done|].
  apply NoDup_app. split; [done|]. split; [|apply NoDup_singleton].
  by intros a Ha ->%list_elem_of_singleton.
Qed.

Lemma loadedCommands_keys (entries : list (string * Export)) (m : JsMap.t Command) :
  NoDup (JsMap.keys m) →
  Forall (λ k, JsString.startsWith k customPrefix = true) (JsMap.keys m) →
  NoDup (JsMap.keys (foldl loadEntry m entries))
  ∧ Forall (λ k, JsString.startsWith k customPrefix = true)
      (JsMap.keys (foldl loadEntry m entries)).
Proof.
  revert m. induction entries as [|[funcName [f|]] entries IH]; intros m Hnd Hprefix;
    [done| |by apply IH].
  cbn [foldl]. apply IH; unfold loadEntry; cbn [fst snd].
  - by apply NoDup_keys_set.
  - rewrite keys_set. case_decide; [done|].
    apply Forall_app. split; [done|]. constructor; [|done].
    apply (startsWith_app customPrefix funcName).
Qed.

Lemma loaded_keys (env : Env) :
  NoDup (JsMap.keys (loadedCommands (loaded env)))
  ∧ Forall (λ k, JsString.startsWith k customPrefix = true)
      (JsMap.keys (loadedCommands (loaded env))).
Proof.
  assert (NoDup (JsMap.keys (@JsMap.empty Command))
          ∧ Forall (λ k, JsString.startsWith k customPrefix = true)
              (JsMap.keys (@JsMap.empty Command))) as Hempty.
  { split; constructor. }
  unfold loaded. destruct (negb _ || negb _); [done|].
  destruct (required env) as [[n|message]|[n|entries]]; [done..|].
  apply loadedCommands_keys; apply Hempty.
Qed.

Lemma consistent_set_log (events : list Event) (st : State) :
  Consistent st → Consistent (set_log events st).
Proof. by intros []. Qed.

Lemma consistent_afterLoad (env : Env) (st : State) :
  Consistent st → Consistent (afterLoad env st).
Proof.
  intros []. destruct (loaded_keys env) as [Hnd Hprefix]. by constructor.
Qed.

Lemma consistent_touch (commandId : string) (st : State) :
  Consistent st →
  Consistent (set_recentlyUsedCommands (touch (recentlyUsedCommands st) commandId) st).
Proof. intros []. constructor; try done. by apply NoDup_touch. Qed.

Lemma consistent_cleared (st : State) :
  Consistent st → Consistent (set_customCommands JsMap.empty st).
Proof. intros []. constructor; try done; constructor. Qed.

Lemma token_freshDisposables_seq (n : nat) (ids : list string) :
  token <$> freshDisposables n ids = seq n (length ids).
Proof.
  revert n. induction ids as [|id ids IH]; intros n; [done|].
  cbn. by rewrite IH.
Qed.

Lemma orderedCommandIds_Permutation (st : State) :
  orderedCommandIds st ≡ₚ JsMap.keys (customCommands st).
Proof. apply sort_Permutation. Qed.

Lemma consistent_registered (st : State) : Consistent st → Consistent (registered st).
Proof.
  intros [Hissued Hrecent Hkeys Hprefix Hhost Htokens Hids].
  set (ids := orderedCommandIds st).
  set (fresh := freshDisposables (nextToken st) ids).
  assert (hostCommands (registered st) = builtinDisposables ++ fresh ++ [pickerDisposable st])
    as Hhost'.
  { cbn [registered hostCommands]. f_equal. rewrite Hhost, filter_app.
    rewrite Hhost, fmap_app in Htokens. apply NoDup_app in Htokens as (_ & Hdisjoint & _).
    rewrite filter_all, filter_none, app_nil_r; [done| |].
    - apply Forall_forall. intros d Hd Hnot. apply Hnot. by apply list_elem_of_fmap_2.
    - apply Forall_forall. intros d Hd. apply Hdisjoint. by apply list_elem_of_fmap_2. }
  assert (Forall (λ d, (token d < nextToken st)%nat) builtinDisposables) as Hbuiltin.
  { unfold tokensIssued in Hissued. rewrite Hhost, <-app_assoc in Hissued.
    by apply Forall_app in Hissued as [? _]. }
  constructor; try done.
  - by apply tokensIssued_registered.
  - rewrite Hhost', !fmap_app. fold fresh ids.
    apply NoDup_app. split; [by compute_done|]. split.
    + intros t Ht Hnew.
      apply list_elem_of_fmap in Ht as (d & -> & Hd).
      eapply Forall_forall in Hbuiltin; [|done]. simpl in Hbuiltin.
      apply elem_of_app in Hnew as [Hnew|Hnew%list_elem_of_singleton].
      * unfold fresh in Hnew. rewrite token_freshDisposables_seq in Hnew.
        apply elem_of_seq in Hnew. lia.
      * cbn in Hnew. lia.
    + unfold fresh. rewrite token_freshDisposables_seq.
      cbn [fmap list_fmap pickerDisposable token]. fold ids.
      replace (seq (nextToken st) (length ids) ++ [(nextToken st + length ids)%nat])
        with (seq (nextToken st) (S (length ids))) by (by rewrite seq_S).
      apply NoDup_seq.
  - rewrite Hhost', !fmap_app. unfold fresh.
    rewrite registeredId_freshDisposables.
    assert (Forall (λ k, JsString.startsWith k customPrefix = true) ids) as Hcustom.
    { apply Forall_forall. intros k Hk. unfold ids in Hk.
      rewrite orderedCommandIds_Permutation in Hk.
      by eapply Forall_forall in Hprefix. }
    apply NoDup_app. split; [by compute_done|]. split.
    + intros k Hbuilt Hnew.
      assert (JsString.startsWith k customPrefix = false) as Hk.
      { cbn in Hbuilt. apply elem_of_cons in Hbuilt as [->|Hbuilt]; [done|].
        by apply list_elem_of_singleton in Hbuilt as ->. }
      apply elem_of_app in Hnew as [Hnew|Hnew%list_elem_of_singleton].
      * eapply Forall_forall in Hcustom; [|done]. congruence.
      * subst k. revert Hbuilt. by compute_done.
    + apply NoDup_app. split; [|split; [|apply NoDup_singleton]].
      * unfold ids. by rewrite orderedCommandIds_Permutation.
      * intros k Hk ->%list_elem_of_singleton.
        eapply Forall_forall in Hcustom; [|done]. by vm_compute in Hcustom.
Qed.

Lemma consistent_reloadCommands (env : Env) (silent : bool) (st : State) :
  Consistent st → Consistent (reloadCommands env silent st).2.
Proof.
  intros Hst. unfold reloadCommands. unfold mbind at 1, M_bind at 1.
  rewrite loadCustomCommands_run.
  destruct (loadedCompletion (loaded env)) as [[]|e]; [|by apply consistent_afterLoad].
  unfold mbind at 1, M_bind at 1. rewrite registerCustomCommands_run.
  pose proof (consistent_registered _ (consistent_afterLoad env _ Hst)) as Hreg.
  destruct silent; [done|]. by apply consistent_set_log.
Qed.

Lemma consistent_detached (m : M unit) (st : State) :
  Consistent (m st).2 → Consistent (detached m st).2.
Proof.
  unfold detached, tryCatch. destruct (m st) as [[[]|e] st']; [done|].
  apply consistent_set_log.
Qed.

Lemma consistent_afterTouch (env : Env) (commandId : string) (st : State) :
  Consistent st → Consistent (afterTouch env commandId st).
Proof.
  intros Hst. unfold afterTouch, afterSilentReload.
  pose proof (consistent_afterLoad env _ (consistent_touch commandId _ Hst)) as Hload.
  destruct (loadedCompletion (loaded env)).
  - by apply consistent_registered.
  - by apply consistent_set_log.
Qed.

Lemma consistent_executeCustomCommand (env : Env) (commandId : string) (st : State) :
  Consistent st → Consistent (executeCustomCommand env commandId st).2.
Proof.
  intros Hst. destruct (JsMap.get (customCommands st) commandId) as [command|] eqn:Hget.
  - rewrite (executeCustomCommand_found _ _ _ _ Hget).
    by apply consistent_set_log, consistent_afterTouch.
  - unfold executeCustomCommand, mbind, M_bind, gets. rewrite Hget.
    by apply consistent_set_log.
Qed.

(** Building the items of the picker reads the state and leaves it as it
    is. *)
Lemma mapArray_reads {A B} (l : list A) (f : A → M B) (st : State) :
  (∀ x, (f x st).2 = st) → (mapArray l f st).2 = st.
Proof.
  intros Hf. induction l as [|x l IH]; [done|].
  cbn [mapArray]. unfold mbind at 1, M_bind at 1.
  pose proof (Hf x) as Hx. destruct (f x st) as [[y|e] st1]; cbn in Hx; subst st1; [|done].
  unfold mbind, M_bind. destruct (mapArray l f st) as [[ys|e] st2]; by cbn in IH |- *.
Qed.

Lemma consistent_pickCustomCommand (env : Env) (ids : list string) (choice : option nat)
    (st : State) :
  Consistent st → Consistent (pickCustomCommand env ids choice st).2.
Proof.
  intros Hst. unfold pickCustomCommand. unfold mbind at 1, M_bind at 1, gets at 1.
  case_decide as Hsize.
  - apply nil_length_inv in Hsize.
    pose proof (pickCustomCommand_empty env ids choice st Hsize) as Hrun.
    unfold pickCustomCommand in Hrun. unfold mbind at 1, M_bind at 1, gets at 1 in Hrun.
    rewrite Hsize in Hrun. cbn [JsMap.size length] in Hrun.
    rewrite decide_True in Hrun by done. rewrite Hrun. by apply consistent_set_log.
  - unfold mbind at 1, M_bind at 1.
    match goal with |- context [mapArray ids ?f st] =>
      pose proof (mapArray_reads ids f st) as Hitems;
      destruct (mapArray ids f st) as [[items|e] st1]
    end; cbn [snd] in Hitems; rewrite Hitems; try done.
    + unfold mbind at 1, M_bind at 1, emit at 1, modify at 1.
      destruct (choice ≫= _) as [selected|]; [|by apply consistent_set_log].
      by apply consistent_executeCustomCommand, consistent_set_log.
    + intros id. unfold mbind, M_bind, gets.
      by destruct (JsMap.get (customCommands st) id).
    + intros id. unfold mbind, M_bind, gets.
      by destruct (JsMap.get (customCommands st) id).
Qed.

Lemma consistent_invoke (env : Env) (d : Disposable) (choice : option nat) (st : State) :
  Consistent st → Consistent (invoke env d choice st).2.
Proof.
  intros Hst. unfold invoke. destruct (handler d) as [commandId|ids| |].
  - by apply consistent_executeCustomCommand.
  - by apply consistent_pickCustomCommand.
  - by apply consistent_set_log.
  - by apply consistent_reloadCommands.
Qed.

Lemma consistent_onDidDelete (st : State) : Consistent st → Consistent (onDidDelete st).2.
Proof.
  intros Hst. unfold onDidDelete, mbind, M_bind, modify.
  rewrite registerCustomCommands_run. by apply consistent_registered, consistent_cleared.
Qed.

Lemma consistent_step (st st' : State) : Consistent st → step st st' → Consistent st'.
Proof.
  intros Hst Hstep. destruct Hstep.
  - by apply consistent_invoke.
  - by apply consistent_detached, consistent_reloadCommands.
  - by apply consistent_detached, consistent_reloadCommands.
  - by apply consistent_onDidDelete.
Qed.

Lemma consistent_activate (env : Env) (st : State) :
  activate env initialState = (Normal tt, st) → Consistent st.
Proof.
  unfold activate. unfold mbind at 1, M_bind at 1. rewrite loadCustomCommands_run.
  destruct (loadedCompletion (loaded env)) as [[]|e]; [|done].
  unfold mbind at 1, M_bind at 1, registerCommand at 1.
  unfold mbind at 1, M_bind at 1, registerCommand at 1.
  unfold mbind, M_bind. rewrite registerCustomCommands_run. intros [= <-].
  apply consistent_registered. destruct (loaded_keys env) as [Hnd Hprefix].
  constructor; cbn; try done.
  - repeat constructor.
  - constructor.
  - by compute_done.
  - by compute_done.
Qed.

(** Every state that the activated extension reaches is consistent: the
    recency list and the Map keys hold no id twice, the active
    registrations are the built-in ones and those of the registry, and no
    two of them share an id or a token. *)
Theorem reachable_consistent (st : State) : reachable st → Consistent st.
Proof.
  induction 1 as [env st Hactivate|st st' _ IH Hstep].
  - by eapply consistent_activate.
  - by eapply consistent_step.
Qed.

(** * Further properties *)

(** The sample extension after its activation. *)
Lemma sampleState_reachable (outcome : Outcome) : reachable (sampleState outcome).
Proof.
  apply (reachable_activated (sampleEnv outcome)). unfold sampleState.
  vm_compute. reflexivity.
Qed.

Lemma sampleState_executor (outcome : Outcome) :
  mkDisposable 2 "custom-commander.custom.sample"
    (HExecute "custom-commander.custom.sample") ∈ hostCommands (sampleState outcome).
Proof.
  replace (hostCommands (sampleState outcome)) with
    (builtinDisposables ++
     [mkDisposable 2 "custom-commander.custom.sample"
        (HExecute "custom-commander.custom.sample");
      mkDisposable 3 pickerCommandId (HPicker ["custom-commander.custom.sample"])])
    by (vm_compute; reflexivity).
  do 2 apply list_elem_of_further. apply list_elem_of_here.
Qed.

Lemma sampleState_picker (outcome : Outcome) :
  mkDisposable 3 pickerCommandId (HPicker ["custom-commander.custom.sample"]) ∈
  hostCommands (sampleState outcome).
Proof.
  replace (hostCommands (sampleState outcome)) with
    (builtinDisposables ++
     [mkDisposable 2 "custom-commander.custom.sample"
        (HExecute "custom-commander.custom.sample");
      mkDisposable 3 pickerCommandId (HPicker ["custom-commander.custom.sample"])])
    by (vm_compute; reflexivity).
  do 3 apply list_elem_of_further. apply list_elem_of_here.
Qed.

(** ** Loading *)

Lemma set_fresh {V} (m : JsMap.t V) (k : string) (v : V) :
  k ∉ JsMap.keys m → JsMap.set m k v = m ++ [(k, v)].
Proof.
  unfold JsMap.keys. induction m as [|[k' v'] m IH]; [done|].
  cbn [fmap list_fmap fst]. intros [Hne Hk]%not_elem_of_cons. cbn [JsMap.set].
  rewrite decide_False by done. by rewrite IH.
Qed.

Lemma get_elem_of {V} (m : JsMap.t V) (k : string) (v : V) :
  NoDup (JsMap.keys m) → (k, v) ∈ m → JsMap.get m k = Some v.
Proof.
  unfold JsMap.keys. induction m as [|[k' v'] m IH]; [by intros _ ?%elem_of_nil|].
  cbn [fmap list_fmap fst]. intros [Hk' Hnd]%NoDup_cons Hin. cbn [JsMap.get].
  apply elem_of_cons in Hin as [[= <- <-]|Hin]; [by rewrite decide_True|].
  rewrite decide_False; [by apply IH|].
  intros ->. apply Hk'. by apply (list_elem_of_fmap_2 fst) in Hin.
Qed.

Lemma exportedCommands_keys (entries : list (string * Export)) :
  JsMap.keys (exportedCommands entries) `sublist_of` (customCommandId <$> entries.*1).
Proof.
  unfold JsMap.keys, exportedCommands, exportedCommand.
  induction entries as [|[funcName [f|]] entries IH]; [done|..]; cbn.
  - by apply sublist_skip.
  - by apply sublist_cons.
Qed.

Lemma foldl_loadEntry (entries : list (string * Export)) (m : JsMap.t Command) :
  NoDup (JsMap.keys m ++ (customCommandId <$> entries.*1)) →
  foldl loadEntry m entries = m ++ exportedCommands entries.
Proof.
  revert m. induction entries as [|[funcName [f|]] entries IH]; intros m Hnd.
  - by rewrite app_nil_r.
  - cbn [foldl]. unfold loadEntry at 2. cbn [fst snd].
    cbn [fmap list_fmap fst] in Hnd.
    rewrite set_fresh.
    + rewrite IH; [by rewrite <-app_assoc|].
      unfold JsMap.keys in *. by rewrite fmap_app, <-app_assoc.
    + apply NoDup_app in Hnd as (_ & Hdisjoint & _). intros Hin.
      apply (Hdisjoint _ Hin). by left.
  - cbn [foldl]. unfold loadEntry at 2. cbn [fst snd]. apply IH.
    cbn [fmap list_fmap fst] in Hnd.
    apply NoDup_app in Hnd as (Hm & Hdisjoint & [_ Hrest]%NoDup_cons).
    apply NoDup_app. split; [done|]. split; [|done].
    intros k Hk Hin. apply (Hdisjoint _ Hk). by right.
Qed.

Lemma NoDup_fst_functional {A B} (l : list (A * B)) (x : A) (y1 y2 : B) :
  NoDup l.*1 → (x, y1) ∈ l → (x, y2) ∈ l → y1 = y2.
Proof.
  induction l as [|[x' y'] l IH]; [by intros _ ?%elem_of_nil|].
  cbn [fmap list_fmap fst]. intros [Hx' Hnd]%NoDup_cons.
  intros [[= -> ->]|H1]%elem_of_cons [[= <-]|H2]%elem_of_cons; try done.
  - destruct Hx'. by apply (list_elem_of_fmap_2 fst) in H2.
  - simplify_eq. destruct Hx'. by apply (list_elem_of_fmap_2 fst) in H1.
  - by apply IH.
Qed.

Global Instance customCommandId_inj : Inj (=) (=) customCommandId.
Proof. intros a b Heq. by apply (inj (String.app "custom-commander.custom.")) in Heq. Qed.

Lemma exportedCommands_NoDup (entries : list (string * Export)) :
  NoDup entries.*1 → NoDup (JsMap.keys (exportedCommands entries)).
Proof.
  intros Hnd. eapply sublist_NoDup; [|apply exportedCommands_keys].
  by apply (NoDup_fmap_2 customCommandId).
Qed.

Lemma loaded_entries (env : Env) (entries : list (string * Export)) :
  is_Some (commandsFilePath env) → fileExists env = true →
  required env = RequireReturns (ModuleEntries entries) →
  NoDup entries.*1 →
  loaded env =
  mkLoaded (Normal tt) (exportedCommands entries) (Some (ModuleEntries entries)) [].
Proof.
  intros Hpath Hfile Hreq Hnd. unfold loaded.
  rewrite (bool_decide_eq_true_2 _ Hpath), Hfile, Hreq. cbn [negb orb]. f_equal.
  rewrite foldl_loadEntry; [done|].
  by apply (NoDup_fmap_2 customCommandId).
Qed.

(** X1.  Loading a module yields one command for every exported function,
    in the order of the exports, under the id made of the fixed prefix and
    the export name, with the metadata of its source text; exports that are
    not functions are left out, nothing is logged, and a command is found
    under its id. *)
Theorem load_exported_functions (env : Env) (st : State)
    (entries : list (string * Export)) :
  is_Some (commandsFilePath env) → fileExists env = true →
  required env = RequireReturns (ModuleEntries entries) →
  NoDup entries.*1 →
  let run := loadCustomCommands env st in
  run.1 = Normal tt
  ∧ customCommands run.2 = exportedCommands entries
  ∧ log run.2 = log st
  ∧ (∀ funcName f, (funcName, ExportFunction f) ∈ entries →
       JsMap.get (customCommands run.2) (customCommandId funcName) =
         Some (commandOf funcName f))
  ∧ (∀ funcName, (funcName, ExportOther) ∈ entries →
       JsMap.get (customCommands run.2) (customCommandId funcName) = None).
Proof.
  intros Hpath Hfile Hreq Hnd run. unfold run. rewrite loadCustomCommands_run.
  unfold afterLoad. rewrite (loaded_entries env entries) by done.
  cbn [fst snd loadedCompletion loadedCommands loadedEvents customCommands log].
  split; [done|]. split; [done|]. split; [by rewrite app_nil_r|]. split.
  - intros funcName f Hin. apply get_elem_of; [by apply exportedCommands_NoDup|].
    apply list_elem_of_omap. by exists (funcName, ExportFunction f).
  - intros funcName Hin. apply get_None. unfold JsMap.keys.
    intros ((id & command) & Hid & Hcmd)%list_elem_of_fmap.
    apply list_elem_of_omap in Hcmd as ([funcName' [f|]] & Hin' & Hexp); [|done].
    unfold exportedCommand in Hexp. cbn in Hexp, Hid. simplify_eq.
    by pose proof (NoDup_fst_functional _ _ _ _ Hnd Hin Hin').
Qed.

Lemma load_exported_functions_witness :
  let env := sampleEnv (Resolves ResultUndefined) in
  is_Some (commandsFilePath env)
  ∧ fileExists env = true
  ∧ NoDup ["sample"; "version"]
  ∧ customCommands (loadCustomCommands env initialState).2 =
      [("custom-commander.custom.sample", sampleCommand (Resolves ResultUndefined))].
Proof.
  assert (NoDup ["sample"; "version"]) as Hnd by compute_done.
  split; [by eexists|]. split; [reflexivity|]. split; [exact Hnd|].
  exact (proj1 (proj2 (load_exported_functions (sampleEnv (Resolves ResultUndefined))
    initialState _ (ex_intro _ samplePath eq_refl) eq_refl eq_refl Hnd))).
Defined.

(** X2.  What [loadCustomCommands] leaves does not depend on what was
    loaded before: completion, command set and module are the same from
    any two states, and the call changes neither the registrations nor the
    recency list. *)
Theorem load_is_wholesale (env : Env) (st st' : State) :
  let run := loadCustomCommands env st in
  let run' := loadCustomCommands env st' in
  run.1 = run'.1
  ∧ customCommands run.2 = customCommands run'.2
  ∧ userCommandsModule run.2 = userCommandsModule run'.2
  ∧ customCommands (loadCustomCommands env run.2).2 = customCommands run.2
  ∧ customCommandDisposables run.2 = customCommandDisposables st
  ∧ hostCommands run.2 = hostCommands st
  ∧ recentlyUsedCommands run.2 = recentlyUsedCommands st.
Proof.
  intros run run'. unfold run, run'. by rewrite !loadCustomCommands_run.
Qed.

Lemma handler_freshDisposables (n : nat) (ids : list string) :
  handler <$> freshDisposables n ids = HExecute <$> ids.
Proof. revert n. induction ids as [|id ids IH]; intros n; cbn; [done|]. by rewrite IH. Qed.

Lemma registryMatches_registered (st : State) : registryMatches (registered st).
Proof.
  unfold registryMatches, registered, orderedCommandIds.
  cbn [customCommandDisposables customCommands recentlyUsedCommands].
  by rewrite !fmap_app, registeredId_freshDisposables, handler_freshDisposables.
Qed.

Lemma registryMatches_set_log (events : list Event) (st : State) :
  registryMatches st → registryMatches (set_log events st).
Proof. done. Qed.

Lemma reloadCommands_run (env : Env) (silent : bool) (st : State) :
  reloadCommands env silent st =
  match loadedCompletion (loaded env) with
  | Normal _ =>
      let st1 := registered (afterLoad env st) in
      (Normal tt,
       if silent then st1
       else set_log
              (log st1 ++
               [SetStatusBarMessage
                  ("Reloaded " +:+
                   NilZero.string_of_uint (Nat.to_uint (JsMap.size (customCommands st1))) +:+
                   " custom commands")])
              st1)
  | Abrupt e => (Abrupt e, afterLoad env st)
  end.
Proof.
  unfold reloadCommands. unfold mbind at 1, M_bind at 1. rewrite loadCustomCommands_run.
  destruct (loadedCompletion (loaded env)) as [[]|e]; [|done].
  unfold mbind at 1, M_bind at 1. rewrite registerCustomCommands_run.
  by destruct silent.
Qed.

(** X3.  Whenever a reload completes, the registry matches the command set
    that was loaded: the registrations are those of the ordered ids, each
    bound to the executor for its id, then the picker, all active in the
    host.  A reload that is not silent ends with a status message that
    counts the commands. *)
Theorem reload_syncs_registry (env : Env) (silent : bool) (st : State) :
  (reloadCommands env silent st).1 = Normal tt →
  let st' := (reloadCommands env silent st).2 in
  registryMatches st'
  ∧ customCommands st' = customCommands (loadCustomCommands env st).2
  ∧ (∀ d, d ∈ customCommandDisposables st' → d ∈ hostCommands st')
  ∧ (silent = false →
     last (log st') =
       Some (SetStatusBarMessage
               ("Reloaded " +:+
                NilZero.string_of_uint (Nat.to_uint (JsMap.size (customCommands st'))) +:+
                " custom commands"))).
Proof.
  rewrite reloadCommands_run, loadCustomCommands_run.
  destruct (loadedCompletion (loaded env)) as [[]|e]; [|done].
  intros _ st'. unfold st'. cbn [snd]. split; [|split; [|split]].
  - destruct silent; apply registryMatches_registered.
  - by destruct silent.
  - intros d Hd. assert (d ∈ customCommandDisposables (registered (afterLoad env st))) as Hd'
      by (by destruct silent).
    assert (d ∈ hostCommands (registered (afterLoad env st))) as Hhost.
    { cbn [registered customCommandDisposables hostCommands] in *.
      apply elem_of_app. by right. }
    by destruct silent.
  - intros ->. cbn [set_log log]. by rewrite last_snoc.
Qed.

Lemma reload_syncs_registry_witness :
  let env := sampleEnv (Resolves ResultUndefined) in
  (reloadCommands env false initialState).1 = Normal tt
  ∧ last (log (reloadCommands env false initialState).2) =
      Some (SetStatusBarMessage "Reloaded 1 custom commands").
Proof.
  split; [reflexivity|].
  exact (proj2 (proj2 (proj2 (reload_syncs_registry (sampleEnv (Resolves ResultUndefined))
    false initialState eq_refl))) eq_refl).
Defined.

Lemma loaded_without_file (env : Env) :
  commandsFilePath env = None ∨ fileExists env = false →
  loaded env = mkLoaded (Normal tt) JsMap.empty None [].
Proof.
  intros [Hpath|Hfile]; unfold loaded.
  - rewrite Hpath. by rewrite bool_decide_eq_false_2 by (by intros [? ?]).
  - rewrite Hfile. by rewrite orb_true_r.
Qed.

(** X4.  Without a workspace folder or without a definitions file a reload
    is no error: it completes, drops every command, leaves the picker as
    the only registration of the registry, keeps the recency list, and
    reports zero commands in the status bar; no error message is shown. *)
Theorem reload_without_file (env : Env) (st : State) :
  commandsFilePath env = None ∨ fileExists env = false →
  let run := reloadCommands env false st in
  run.1 = Normal tt
  ∧ customCommands run.2 = JsMap.empty
  ∧ customCommandDisposables run.2 =
      [mkDisposable (nextToken st) pickerCommandId (HPicker [])]
  ∧ recentlyUsedCommands run.2 = recentlyUsedCommands st
  ∧ log run.2 = log st ++ [SetStatusBarMessage "Reloaded 0 custom commands"].
Proof.
  intros Hnone run. unfold run. rewrite reloadCommands_run.
  unfold afterLoad. rewrite (loaded_without_file env Hnone).
  cbn [loadedCompletion loadedCommands loadedModule loadedEvents fst snd].
  unfold registered, pickerDisposable, orderedCommandIds, orderCommandIds.
  cbn. by rewrite Nat.add_0_r, app_nil_r.
Qed.

Lemma reload_without_file_witness :
  let env := mkEnv None false (RequireThrows (ThrowNullish JsNull)) None in
  (commandsFilePath env = None ∨ fileExists env = false)
  ∧ log (reloadCommands env false (sampleState (Resolves ResultUndefined))).2 =
      [SetStatusBarMessage "Reloaded 0 custom commands"].
Proof.
  split; [by left|].
  exact (proj2 (proj2 (proj2 (proj2 (reload_without_file
    (mkEnv None false (RequireThrows (ThrowNullish JsNull)) None)
    (sampleState (Resolves ResultUndefined)) (or_introl eq_refl)))))).
Defined.

(** ** Execution *)

(** X5.  When the result of the callable has all three properties and an
    editor is active, the executor performs the three side effects in the
    order information message, replacement of the selection, clipboard
    write with its confirmation, and nothing else after the reload. *)
Theorem execute_effects_in_order (env : Env) (commandId : string) (st : State)
    (command : Command) (selection popup replace clipboard : string) :
  JsMap.get (customCommands st) commandId = Some command →
  activeTextEditor env = Some selection →
  call (func command) (Some selection) =
    Resolves (ResultFields (Some popup) (Some replace) (Some clipboard)) →
  let run := executeCustomCommand env commandId st in
  run.1 = Normal tt
  ∧ log run.2 =
      log st ++ silentReloadEvents env ++
      [ShowInformationMessage popup; EditorReplace replace; ClipboardWriteText clipboard;
       SetStatusBarMessage ("Copied to clipboard: " +:+ JsString.take 20 clipboard)].
Proof.
  intros Hget Heditor Hcall run. unfold run.
  rewrite (executeCustomCommand_found _ _ _ _ Hget), Heditor, Hcall.
  cbn [settled fst snd]. split; [done|].
  cbn [set_log log]. rewrite log_afterTouch, <-app_assoc. by rewrite Heditor.
Qed.

Lemma execute_effects_in_order_witness :
  let outcome := Resolves (ResultFields (Some "done") (Some "NEW") (Some "copied")) in
  JsMap.get (customCommands (sampleState outcome)) "custom-commander.custom.sample" =
    Some (sampleCommand outcome)
  ∧ log (executeCustomCommand (sampleEnv outcome) "custom-commander.custom.sample"
           (sampleState outcome)).2 =
      [ShowInformationMessage "done"; EditorReplace "NEW"; ClipboardWriteText "copied";
       SetStatusBarMessage "Copied to clipboard: copied"].
Proof.
  split; [reflexivity|].
  exact (proj2 (execute_effects_in_order
    (sampleEnv (Resolves (ResultFields (Some "done") (Some "NEW") (Some "copied"))))
    "custom-commander.custom.sample"
    (sampleState (Resolves (ResultFields (Some "done") (Some "NEW") (Some "copied"))))
    (sampleCommand (Resolves (ResultFields (Some "done") (Some "NEW") (Some "copied"))))
    "selected" "done" "NEW" "copied" eq_refl eq_refl eq_refl)).
Defined.

(** X6.  Without an active editor a [replace] property of the result is
    skipped without notice: the callable is called with [undefined], and
    the events are those of the other two properties alone. *)
Theorem execute_replace_without_editor (env : Env) (commandId : string) (st : State)
    (command : Command) (popup clipboard : option string) (replace : string) :
  JsMap.get (customCommands st) commandId = Some command →
  activeTextEditor env = None →
  call (func command) None = Resolves (ResultFields popup (Some replace) clipboard) →
  let run := executeCustomCommand env commandId st in
  run.1 = Normal tt
  ∧ log run.2 =
      log st ++ silentReloadEvents env ++
      match popup with Some text => [ShowInformationMessage text] | None => [] end ++
      match clipboard with
      | Some text =>
          [ClipboardWriteText text;
           SetStatusBarMessage ("Copied to clipboard: " +:+ JsString.take 20 text)]
      | None => []
      end
  ∧ (∀ text, EditorReplace text ∈ log run.2 → EditorReplace text ∈ log st).
Proof.
  intros Hget Heditor Hcall run. unfold run.
  rewrite (executeCustomCommand_found _ _ _ _ Hget), Heditor, Hcall.
  cbn [settled fst snd]. split; [done|].
  cbn [set_log log]. rewrite log_afterTouch, <-app_assoc, Heditor.
  unfold fieldEvents. cbn [app]. split; [done|].
  intros text [Hin|[Hin|Hin]%elem_of_app]%elem_of_app; [done|..].
  - pose proof (silentReloadEvents_no_action env) as Hsilent.
    eapply Forall_forall in Hsilent; [|done]. done.
  - destruct popup, clipboard; cbn in Hin;
      repeat (apply elem_of_cons in Hin as [Hin|Hin]; [discriminate Hin|]);
      by apply elem_of_nil in Hin.
Qed.

Lemma execute_replace_without_editor_witness :
  let outcome := Resolves (ResultFields (Some "done") (Some "NEW") None) in
  let env := mkEnv (Some samplePath) true (required (sampleEnv outcome)) None in
  JsMap.get (customCommands (sampleState outcome)) "custom-commander.custom.sample" =
    Some (sampleCommand outcome)
  ∧ log (executeCustomCommand env "custom-commander.custom.sample"
           (sampleState outcome)).2 = [ShowInformationMessage "done"].
Proof.
  split; [reflexivity|].
  exact (proj1 (proj2 (execute_replace_without_editor
    (mkEnv (Some samplePath) true
       (required (sampleEnv (Resolves (ResultFields (Some "done") (Some "NEW") None)))) None)
    "custom-commander.custom.sample"
    (sampleState (Resolves (ResultFields (Some "done") (Some "NEW") None)))
    (sampleCommand (Resolves (ResultFields (Some "done") (Some "NEW") None)))
    (Some "done") None "NEW" eq_refl eq_refl eq_refl))).
Defined.

(** X7.  The executor runs the callable it looked up before the reload of
    the recency update.  When the definitions file is gone by then, the
    command still runs this once and its result takes effect, the command
    set is empty afterwards, and the next execution of the id ends with
    the error [Custom command not found]. *)
Theorem execute_runs_looked_up_callable (env : Env) (commandId : string) (st : State)
    (command : Command) (popup : string) :
  JsMap.get (customCommands st) commandId = Some command →
  commandsFilePath env = None ∨ fileExists env = false →
  call (func command) (activeTextEditor env) =
    Resolves (ResultFields (Some popup) None None) →
  let run := executeCustomCommand env commandId st in
  run.1 = Normal tt
  ∧ log run.2 = log st ++ [ShowInformationMessage popup]
  ∧ customCommands run.2 = JsMap.empty
  ∧ executeCustomCommand env commandId run.2 =
      (Normal tt,
       set_log (log run.2 ++ [ShowErrorMessage "Custom command not found"]) run.2).
Proof.
  intros Hget Hnone Hcall run.
  assert (customCommands run.2 = JsMap.empty) as Hempty.
  { unfold run. rewrite (executeCustomCommand_found _ _ _ _ Hget).
    cbn [snd set_log customCommands]. unfold afterTouch, afterSilentReload, afterLoad.
    by rewrite (loaded_without_file env Hnone). }
  split; [|split; [|split; [done|]]].
  - unfold run. by rewrite (executeCustomCommand_found _ _ _ _ Hget), Hcall.
  - unfold run. rewrite (executeCustomCommand_found _ _ _ _ Hget), Hcall.
    cbn [settled fst snd set_log log]. rewrite log_afterTouch.
    unfold silentReloadEvents. rewrite (loaded_without_file env Hnone).
    cbn. by rewrite app_nil_r.
  - unfold executeCustomCommand at 1. unfold mbind, M_bind, gets.
    by rewrite Hempty.
Qed.

Lemma execute_runs_looked_up_callable_witness :
  let outcome := Resolves (ResultFields (Some "done") None None) in
  let env := mkEnv (Some samplePath) false (required (sampleEnv outcome)) None in
  JsMap.get (customCommands (sampleState outcome)) "custom-commander.custom.sample" =
    Some (sampleCommand outcome)
  ∧ (commandsFilePath env = None ∨ fileExists env = false)
  ∧ log (executeCustomCommand env "custom-commander.custom.sample"
           (sampleState outcome)).2 = [ShowInformationMessage "done"].
Proof.
  split; [reflexivity|]. split; [by right|].
  exact (proj1 (proj2 (execute_runs_looked_up_callable
    (mkEnv (Some samplePath) false
       (required (sampleEnv (Resolves (ResultFields (Some "done") None None)))) None)
    "custom-commander.custom.sample"
    (sampleState (Resolves (ResultFields (Some "done") None None)))
    (sampleCommand (Resolves (ResultFields (Some "done") None None)))
    "done" eq_refl (or_intror eq_refl) eq_refl))).
Defined.

Lemma order_head (keys rest : list string) (id : string) :
  id ∈ keys → head (orderCommandIds keys (id :: rest)) = Some id.
Proof.
  intros Hid. set (recent := id :: rest). unfold orderCommandIds.
  rewrite sort_partition.
  assert (id ∈ JsArray.sort (compareByRecency recent) (filter (.∈ recent) keys)) as Hin.
  { rewrite sort_Permutation. apply list_elem_of_filter. split; [by left|done]. }
  assert (Forall (.∈ recent) (filter (.∈ recent) keys)) as Hused.
  { apply Forall_forall. by intros a [? _]%list_elem_of_filter. }
  pose proof (sort_sorted recent _ Hused) as Hsorted.
  assert (∀ a, a ∈ JsArray.sort (compareByRecency recent) (filter (.∈ recent) keys) →
               a ∈ recent) as Hrecent.
  { intros a. rewrite sort_Permutation. by intros [? _]%list_elem_of_filter. }
  destruct (JsArray.sort _ (filter _ keys)) as [|first others];
    [by apply elem_of_nil in Hin|].
  cbn [app head]. f_equal. apply StronglySorted_cons in Hsorted as [Hfirst _].
  apply elem_of_cons in Hin as [->|Hin]; [done|].
  eapply Forall_forall in Hfirst; [|done]. cbn beta in Hfirst.
  assert (JsArray.indexOf recent id = 0) as Hzero by (unfold recent; cbn; by rewrite decide_True).
  pose proof (Hrecent first (list_elem_of_here _ _)) as Hfirst_recent.
  destruct (indexOf_lookup recent first Hfirst_recent) as [Hge _].
  apply (indexOf_inj recent); [done|lia].
Qed.

(** X8.  Using a command moves it to the front of the registration order:
    when the reload of the recency update completes and still yields the
    command, the first registration of the registry after the execution is
    the one of the executed id, whatever the callable does. *)
Theorem executed_command_registered_first (env : Env) (commandId : string) (st : State)
    (command : Command) :
  JsMap.get (customCommands st) commandId = Some command →
  (loadCustomCommands env st).1 = Normal tt →
  commandId ∈ JsMap.keys (customCommands (loadCustomCommands env st).2) →
  let st' := (executeCustomCommand env commandId st).2 in
  head (registeredId <$> customCommandDisposables st') = Some commandId
  ∧ head (recentlyUsedCommands st') = Some commandId.
Proof.
  rewrite loadCustomCommands_run. cbn [fst snd afterLoad customCommands].
  intros Hget Hload Hkey. cbv zeta.
  rewrite (executeCustomCommand_found _ _ _ _ Hget).
  cbn [snd set_log customCommandDisposables recentlyUsedCommands].
  unfold afterTouch, afterSilentReload. rewrite Hload.
  cbn [registered customCommandDisposables recentlyUsedCommands afterLoad
         set_recentlyUsedCommands].
  split; [|done].
  rewrite fmap_app, registeredId_freshDisposables.
  unfold orderedCommandIds.
  cbn [afterLoad customCommands recentlyUsedCommands set_recentlyUsedCommands].
  unfold touch, JsArray.unshift.
  pose proof (order_head _
    (if decide (JsArray.indexOf (recentlyUsedCommands st) commandId > -1)
     then JsArray.splice1 (recentlyUsedCommands st)
            (JsArray.indexOf (recentlyUsedCommands st) commandId)
     else recentlyUsedCommands st) commandId Hkey) as Hhead.
  destruct (orderCommandIds _ _); [done|]. done.
Qed.

Lemma executed_command_registered_first_witness :
  let outcome := Rejects (ThrowValue "boom") in
  JsMap.get (customCommands (sampleState outcome)) "custom-commander.custom.sample" =
    Some (sampleCommand outcome)
  ∧ (loadCustomCommands (sampleEnv outcome) (sampleState outcome)).1 = Normal tt
  ∧ head (registeredId <$> customCommandDisposables
            (executeCustomCommand (sampleEnv outcome) "custom-commander.custom.sample"
               (sampleState outcome)).2) = Some "custom-commander.custom.sample".
Proof.
  assert ("custom-commander.custom.sample" ∈
            JsMap.keys (customCommands (loadCustomCommands
              (sampleEnv (Rejects (ThrowValue "boom")))
              (sampleState (Rejects (ThrowValue "boom")))).2)) as Hkey by (by left).
  split; [reflexivity|]. split; [reflexivity|].
  exact (proj1 (executed_command_registered_first
    (sampleEnv (Rejects (ThrowValue "boom"))) "custom-commander.custom.sample"
    (sampleState (Rejects (ThrowValue "boom")))
    (sampleCommand (Rejects (ThrowValue "boom"))) eq_refl eq_refl Hkey)).
Defined.

(** ** What changes the recency list *)

Lemma recentlyUsedCommands_reloadCommands (env : Env) (silent : bool) (st : State) :
  recentlyUsedCommands (reloadCommands env silent st).2 = recentlyUsedCommands st.
Proof.
  rewrite reloadCommands_run.
  destruct (loadedCompletion (loaded env)) as [[]|e]; [|done]. by destruct silent.
Qed.

Lemma recentlyUsedCommands_detached (m : M unit) (st : State) :
  recentlyUsedCommands (m st).2 = recentlyUsedCommands st →
  recentlyUsedCommands (detached m st).2 = recentlyUsedCommands st.
Proof. unfold detached, tryCatch. by destruct (m st) as [[[]|e] st']. Qed.

Lemma recentlyUsedCommands_executeCustomCommand (env : Env) (commandId : string)
    (st : State) :
  recentlyUsedCommands (executeCustomCommand env commandId st).2 =
  match JsMap.get (customCommands st) commandId with
  | Some _ => touch (recentlyUsedCommands st) commandId
  | None => recentlyUsedCommands st
  end.
Proof.
  destruct (JsMap.get (customCommands st) commandId) as [command|] eqn:Hget.
  - rewrite (executeCustomCommand_found _ _ _ _ Hget).
    cbn [snd set_log recentlyUsedCommands]. apply recentlyUsedCommands_afterTouch.
  - unfold executeCustomCommand, mbind, M_bind, gets. by rewrite Hget.
Qed.

Lemma get_Some_key {V} (m : JsMap.t V) (k : string) :
  is_Some (JsMap.get m k) → k ∈ JsMap.keys m.
Proof.
  intros [v Hv]. destruct (decide (k ∈ JsMap.keys m)) as [|Hk]; [done|].
  apply get_None in Hk. congruence.
Qed.

Lemma pickCustomCommand_populated (env : Env) (ids : list string) (choice : option nat)
    (st : State) :
  customCommands st ≠ [] →
  ∃ outcome,
    (mapArray ids (λ id,
       data ← gets (λ st, JsMap.get (customCommands st) id);
       recent ← gets recentlyUsedCommands;
       let isRecent : bool := JsArray.includes recent id in
       match data with
       | None => throw (Engine.cannotReadProperty "name" JsUndefined)
       | Some data =>
           mret {| label := (if isRecent then "$(clock) " else EmptyString) +:+
                            name (meta data);
                   itemDescription := description (meta data);
                   commandId := id |}
       end) st).1 = outcome
    ∧ pickCustomCommand env ids choice st =
      match outcome with
      | Abrupt e => (Abrupt e, st)
      | Normal quickPickItems =>
          let st1 := set_log (log st ++ [ShowQuickPick quickPickItems populatedPlaceHolder]) st in
          match choice ≫= (quickPickItems !!.) with
          | Some selected => executeCustomCommand env (commandId selected) st1
          | None => (Normal tt, st1)
          end
      end.
Proof.
  intros Hne. eexists. split; [reflexivity|].
  unfold pickCustomCommand. unfold mbind at 1, M_bind at 1, gets at 1.
  rewrite decide_False by (by intros ?%nil_length_inv).
  unfold mbind at 1, M_bind at 1.
  match goal with |- context [mapArray ids ?f st] =>
    pose proof (mapArray_reads ids f st) as Hitems;
    destruct (mapArray ids f st) as [[items|e] st1]
  end; cbn [fst snd] in *.
  - rewrite Hitems.
    + unfold mbind at 1, M_bind at 1, emit at 1, modify at 1.
      by destruct (choice ≫= _).
    + intros id. unfold mbind, M_bind, gets.
      by destruct (JsMap.get (customCommands st) id).
  - rewrite Hitems; [done|].
    intros id. unfold mbind, M_bind, gets.
    by destruct (JsMap.get (customCommands st) id).
Qed.

Lemma recentlyUsedCommands_pickCustomCommand (env : Env) (ids : list string)
    (choice : option nat) (st : State) :
  recentlyUsedCommands (pickCustomCommand env ids choice st).2 = recentlyUsedCommands st
  ∨ ∃ id, id ∈ JsMap.keys (customCommands st)
          ∧ recentlyUsedCommands (pickCustomCommand env ids choice st).2 =
              touch (recentlyUsedCommands st) id.
Proof.
  destruct (customCommands st) as [|entry entries] eqn:Hcommands.
  - left. by rewrite (pickCustomCommand_empty env ids choice st Hcommands).
  - destruct (pickCustomCommand_populated env ids choice st) as (outcome & _ & ->);
      [by rewrite Hcommands|].
    destruct outcome as [items|e]; [|by left]. cbv zeta.
    destruct (choice ≫= _) as [selected|]; [|by left].
    rewrite recentlyUsedCommands_executeCustomCommand. cbn [set_log customCommands].
    destruct (JsMap.get (customCommands st) (commandId selected)) eqn:Hget; [|by left].
    right. exists (commandId selected). split; [|done].
    rewrite <-Hcommands. apply get_Some_key. by rewrite Hget.
Qed.

(** X9.  One call into the activated extension either leaves the recency
    list as it is or moves the id of a command of the current command set
    to its front: reloads, file events and the picker's own work never
    change the list, and an id that is no command never enters it. *)
Theorem recency_changes_only_by_use (st st' : State) :
  step st st' →
  recentlyUsedCommands st' = recentlyUsedCommands st
  ∨ ∃ id, id ∈ JsMap.keys (customCommands st)
          ∧ recentlyUsedCommands st' = touch (recentlyUsedCommands st) id.
Proof.
  intros Hstep. destruct Hstep as [st env d choice _|st env|st env|st].
  - unfold invoke. destruct (handler d) as [commandId|ids| |].
    + rewrite recentlyUsedCommands_executeCustomCommand.
      destruct (JsMap.get (customCommands st) commandId) eqn:Hget; [|by left].
      right. exists commandId. split; [|done]. apply get_Some_key. by rewrite Hget.
    + apply recentlyUsedCommands_pickCustomCommand.
    + by left.
    + left. apply recentlyUsedCommands_reloadCommands.
  - left. apply recentlyUsedCommands_detached, recentlyUsedCommands_reloadCommands.
  - left. apply recentlyUsedCommands_detached, recentlyUsedCommands_reloadCommands.
  - left. unfold onDidDelete, mbind, M_bind, modify. by rewrite registerCustomCommands_run.
Qed.

Lemma recency_changes_only_by_use_witness :
  let outcome := Resolves ResultUndefined in
  let st := sampleState outcome in
  let st' :=
    (invoke (sampleEnv outcome)
       (mkDisposable 2 "custom-commander.custom.sample"
          (HExecute "custom-commander.custom.sample")) None st).2 in
  step st st'
  ∧ (recentlyUsedCommands st' = recentlyUsedCommands st
     ∨ ∃ id, id ∈ JsMap.keys (customCommands st)
             ∧ recentlyUsedCommands st' = touch (recentlyUsedCommands st) id).
Proof.
  assert (step (sampleState (Resolves ResultUndefined))
            (invoke (sampleEnv (Resolves ResultUndefined))
               (mkDisposable 2 "custom-commander.custom.sample"
                  (HExecute "custom-commander.custom.sample")) None
               (sampleState (Resolves ResultUndefined))).2) as Hstep.
  { apply step_invoke, sampleState_executor. }
  split; [exact Hstep|]. exact (recency_changes_only_by_use _ _ Hstep).
Defined.

(** ** The registry stays in step with the command set *)

Lemma loaded_abrupt_empty (env : Env) (e : Thrown) :
  loadedCompletion (loaded env) = Abrupt e → loadedCommands (loaded env) = JsMap.empty.
Proof.
  unfold loaded. destruct (negb _ || negb _); [done|].
  by destruct (required env) as [[n|message]|[n|entries]].
Qed.

Lemma synced_set_log (events : list Event) (st : State) :
  Synced st → Synced (set_log events st).
Proof. by intros [?|?]; [left|right]. Qed.

Lemma synced_reloadCommands (env : Env) (silent : bool) (st : State) :
  Synced (reloadCommands env silent st).2.
Proof.
  rewrite reloadCommands_run.
  destruct (loadedCompletion (loaded env)) as [[]|e] eqn:Hload.
  - right. destruct silent; apply registryMatches_registered.
  - left. cbn. by apply loaded_abrupt_empty in Hload.
Qed.

Lemma synced_detached (m : M unit) (st : State) :
  Synced (m st).2 → Synced (detached m st).2.
Proof.
  unfold detached, tryCatch. destruct (m st) as [[[]|e] st']; [done|].
  apply synced_set_log.
Qed.

Lemma synced_afterTouch (env : Env) (commandId : string) (st : State) :
  Synced (afterTouch env commandId st).
Proof.
  unfold afterTouch, afterSilentReload.
  destruct (loadedCompletion (loaded env)) as [[]|e] eqn:Hload.
  - right. apply registryMatches_registered.
  - left. cbn. by apply loaded_abrupt_empty in Hload.
Qed.

Lemma synced_executeCustomCommand (env : Env) (commandId : string) (st : State) :
  Synced st → Synced (executeCustomCommand env commandId st).2.
Proof.
  intros Hst. destruct (JsMap.get (customCommands st) commandId) as [command|] eqn:Hget.
  - rewrite (executeCustomCommand_found _ _ _ _ Hget).
    apply synced_set_log, synced_afterTouch.
  - unfold executeCustomCommand, mbind, M_bind, gets. rewrite Hget.
    by apply synced_set_log.
Qed.

Lemma synced_pickCustomCommand (env : Env) (ids : list string) (choice : option nat)
    (st : State) :
  Synced st → Synced (pickCustomCommand env ids choice st).2.
Proof.
  intros Hst. destruct (customCommands st) as [|entry entries] eqn:Hcommands.
  - rewrite (pickCustomCommand_empty env ids choice st Hcommands).
    by apply synced_set_log.
  - destruct (pickCustomCommand_populated env ids choice st) as (outcome & _ & ->);
      [by rewrite Hcommands|].
    destruct outcome as [items|e]; [|done]. cbv zeta.
    destruct (choice ≫= _) as [selected|]; [|by apply synced_set_log].
    by apply synced_executeCustomCommand, synced_set_log.
Qed.

Lemma synced_step (st st' : State) : Synced st → step st st' → Synced st'.
Proof.
  intros Hst Hstep. destruct Hstep as [st env d choice _|st env|st env|st].
  - unfold invoke. destruct (handler d) as [commandId|ids| |].
    + by apply synced_executeCustomCommand.
    + by apply synced_pickCustomCommand.
    + by apply synced_set_log.
    + apply synced_reloadCommands.
  - apply synced_detached, synced_reloadCommands.
  - apply synced_detached, synced_reloadCommands.
  - right. unfold onDidDelete, mbind, M_bind, modify. rewrite registerCustomCommands_run.
    apply registryMatches_registered.
Qed.

Lemma synced_activate (env : Env) (st : State) :
  activate env initialState = (Normal tt, st) → Synced st.
Proof.
  unfold activate. unfold mbind at 1, M_bind at 1. rewrite loadCustomCommands_run.
  destruct (loadedCompletion (loaded env)) as [[]|e]; [|done].
  unfold mbind at 1, M_bind at 1, registerCommand at 1.
  unfold mbind at 1, M_bind at 1, registerCommand at 1.
  unfold mbind, M_bind. rewrite registerCustomCommands_run. intros [= <-].
  right. apply registryMatches_registered.
Qed.

Lemma reachable_synced (st : State) : reachable st → Synced st.
Proof.
  induction 1 as [env st Hactivate|st st' _ IH Hstep].
  - by eapply synced_activate.
  - by eapply synced_step.
Qed.

Lemma get_is_Some {V} (m : JsMap.t V) (k : string) :
  k ∈ JsMap.keys m → is_Some (JsMap.get m k).
Proof.
  intros Hk. destruct (JsMap.get m k) eqn:Hget; [by eexists|].
  by apply get_None in Hget.
Qed.

(** The handlers of the registrations that a reachable state holds for the
    registry, when its command set is not empty. *)
Lemma reachable_handler (st : State) (d : Disposable) :
  reachable st → customCommands st ≠ [] → d ∈ hostCommands st →
  handler d = HCreateCommandsFile ∨ handler d = HReloadCommands
  ∨ handler d = HPicker (orderedCommandIds st)
  ∨ ∃ id, handler d = HExecute id ∧ id ∈ JsMap.keys (customCommands st).
Proof.
  intros Hreach Hne Hd.
  destruct (reachable_synced st Hreach) as [Hempty|[_ Hhandlers]]; [done|].
  pose proof (consistent_host st (reachable_consistent st Hreach)) as Hhost.
  rewrite Hhost in Hd. apply elem_of_app in Hd as [Hd|Hd].
  - unfold builtinDisposables in Hd.
    apply elem_of_cons in Hd as [->|Hd]; [by left|].
    apply list_elem_of_singleton in Hd as ->. by right; left.
  - apply (list_elem_of_fmap_2 handler) in Hd. rewrite Hhandlers in Hd.
    apply elem_of_app in Hd as [Hd|Hd%list_elem_of_singleton].
    + apply list_elem_of_fmap in Hd as (id & Hid & Hin). do 3 right.
      exists id. split; [done|]. by rewrite <-(orderedCommandIds_Permutation st).
    + by right; right; left.
Qed.

Lemma mapArray_cons {A B} (x : A) (l : list A) (f : A → M B) (st : State)
    (y : B) (ys : list B) :
  f x st = (Normal y, st) → mapArray l f st = (Normal ys, st) →
  mapArray (x :: l) f st = (Normal (y :: ys), st).
Proof.
  intros Hx Hl. cbn [mapArray]. unfold mbind at 1, M_bind at 1. rewrite Hx.
  unfold mbind at 1, M_bind at 1. by rewrite Hl.
Qed.

Lemma mapArray_items (ids : list string) (st : State) :
  Forall (λ id, id ∈ JsMap.keys (customCommands st)) ids →
  mapArray ids (λ id,
    data ← gets (λ st, JsMap.get (customCommands st) id);
    recent ← gets recentlyUsedCommands;
    let isRecent : bool := JsArray.includes recent id in
    match data with
    | None => throw (Engine.cannotReadProperty "name" JsUndefined)
    | Some data =>
        mret {| label := (if isRecent then "$(clock) " else EmptyString) +:+
                         name (meta data);
                itemDescription := description (meta data);
                commandId := id |}
    end) st =
  (Normal
     (commandItem (recentlyUsedCommands st) <$>
      omap (λ id, (id,.) <$> JsMap.get (customCommands st) id) ids),
   st)
  ∧ (omap (λ id, (id,.) <$> JsMap.get (customCommands st) id) ids).*1 = ids.
Proof.
  induction 1 as [|id ids Hid _ [IHrun IHids]]; [done|].
  destruct (get_is_Some _ _ Hid) as [data Hdata]. split.
  - cbn [omap list_omap]. rewrite Hdata. cbn [fmap option_fmap option_map list_fmap].
    apply mapArray_cons; [|exact IHrun].
    unfold mbind, M_bind, gets. by rewrite Hdata.
  - cbn [omap list_omap]. rewrite Hdata. cbn. by rewrite IHids.
Qed.

(** X10.  In every state that the activated extension reaches with a
    command set that is not empty, the picker that is registered presents
    one choice per command, in the registration order, with the name of
    the command (marked with a clock when its id is in the recency list)
    and its description; it never fails on a missing command.  Dismissing
    it does nothing more, and selecting a choice executes the command of
    that choice. *)
Theorem active_picker_presents_commands (st : State) (env : Env) (d : Disposable)
    (ids : list string) (choice : option nat) :
  reachable st → customCommands st ≠ [] →
  d ∈ hostCommands st → handler d = HPicker ids →
  let items := commandItem (recentlyUsedCommands st) <$> orderedEntries st in
  let st1 := set_log (log st ++ [ShowQuickPick items populatedPlaceHolder]) st in
  ids = orderedCommandIds st
  ∧ commandId <$> items = orderedCommandIds st
  ∧ invoke env d choice st =
      match choice ≫= (items !!.) with
      | Some selected => executeCustomCommand env (commandId selected) st1
      | None => (Normal tt, st1)
      end.
Proof.
  intros Hreach Hne Hd Hhandler items st1.
  assert (ids = orderedCommandIds st) as ->.
  { destruct (reachable_handler st d Hreach Hne Hd) as [H|[H|[H|(id & H & _)]]];
      congruence. }
  assert (Forall (λ id, id ∈ JsMap.keys (customCommands st)) (orderedCommandIds st))
    as Hkeys.
  { apply Forall_forall. intros id. by rewrite (orderedCommandIds_Permutation st). }
  destruct (mapArray_items _ st Hkeys) as [Hrun Hids]. fold (orderedEntries st) in Hrun, Hids.
  split; [done|]. split.
  - unfold items. rewrite <-list_fmap_compose. exact Hids.
  - unfold invoke. rewrite Hhandler.
    destruct (pickCustomCommand_populated env (orderedCommandIds st) choice st Hne)
      as (outcome & Houtcome & ->).
    rewrite Hrun in Houtcome. cbn [fst] in Houtcome. by subst outcome.
Qed.

Lemma active_picker_presents_commands_witness :
  let outcome := Resolves ResultUndefined in
  let st := sampleState outcome in
  let d := mkDisposable 3 pickerCommandId (HPicker ["custom-commander.custom.sample"]) in
  reachable st
  ∧ customCommands st ≠ []
  ∧ d ∈ hostCommands st
  ∧ invoke (sampleEnv outcome) d None st =
      (Normal tt,
       set_log
         [ShowQuickPick
            [{| label := "Sample";
                itemDescription := "Execute Sample function";
                commandId := "custom-commander.custom.sample" |}]
            "Select a custom command to run"]
         st).
Proof.
  assert (reachable (sampleState (Resolves ResultUndefined))) as Hreach.
  { apply sampleState_reachable. }
  assert (customCommands (sampleState (Resolves ResultUndefined)) ≠ []) as Hne by done.
  assert (mkDisposable 3 pickerCommandId (HPicker ["custom-commander.custom.sample"]) ∈
            hostCommands (sampleState (Resolves ResultUndefined))) as Hd.
  { apply sampleState_picker. }
  split; [exact Hreach|]. split; [exact Hne|]. split; [exact Hd|].
  exact (proj2 (proj2 (active_picker_presents_commands _
    (sampleEnv (Resolves ResultUndefined)) _ _ None Hreach Hne Hd eq_refl))).
Defined.

(** X11.  In every state that the activated extension reaches, the command
    behind an active registration of the executor exists in the command
    set, unless the set is empty (a load that ends abruptly leaves the
    earlier registrations active); the registration of a command that was
    removed from a file that still loads is never left active. *)
Theorem active_command_resolves (st : State) (d : Disposable) (id : string) :
  reachable st → d ∈ hostCommands st → handler d = HExecute id →
  customCommands st = [] ∨ is_Some (JsMap.get (customCommands st) id).
Proof.
  intros Hreach Hd Hhandler.
  destruct (decide (customCommands st = [])) as [|Hne]; [by left|]. right.
  destruct (reachable_handler st d Hreach Hne Hd) as [H|[H|[H|(id' & H & Hkey)]]];
    try congruence.
  apply get_is_Some. congruence.
Qed.

Lemma active_command_resolves_witness :
  let st := sampleState (Resolves ResultUndefined) in
  let d := mkDisposable 2 "custom-commander.custom.sample"
             (HExecute "custom-commander.custom.sample") in
  reachable st
  ∧ d ∈ hostCommands st
  ∧ (customCommands st = []
     ∨ is_Some (JsMap.get (customCommands st) "custom-commander.custom.sample")).
Proof.
  assert (reachable (sampleState (Resolves ResultUndefined))) as Hreach.
  { apply sampleState_reachable. }
  assert (mkDisposable 2 "custom-commander.custom.sample"
            (HExecute "custom-commander.custom.sample") ∈
            hostCommands (sampleState (Resolves ResultUndefined))) as Hd.
  { apply sampleState_executor. }
  split; [exact Hreach|]. split; [exact Hd|].
  exact (active_command_resolves _ _ _ Hreach Hd eq_refl).
Defined.

(** ** Registrations over the life of the extension *)

Lemma consistent_disposed (st : State) :
  Consistent st →
  filter (λ r, token r ∉ token <$> customCommandDisposables st) (hostCommands st) =
  builtinDisposables.
Proof.
  intros [_ _ _ _ Hhost Htokens _]. rewrite Hhost, filter_app.
  rewrite Hhost, fmap_app in Htokens. apply NoDup_app in Htokens as (_ & Hdisjoint & _).
  rewrite filter_all, filter_none, app_nil_r; [done| |].
  - apply Forall_forall. intros d Hd Hnot. apply Hnot. by apply list_elem_of_fmap_2.
  - apply Forall_forall. intros d Hd. apply Hdisjoint. by apply list_elem_of_fmap_2.
Qed.

(** X12.  In every state that the activated extension reaches, the active
    registrations are the two built-in commands followed by the current
    registrations of the registry, so no registration of an earlier reload
    stays behind; no two active registrations share a command id, and
    neither the recency list nor the command set names an id twice. *)
Theorem registrations_never_leak (st : State) :
  reachable st →
  hostCommands st = builtinDisposables ++ customCommandDisposables st
  ∧ NoDup (registeredId <$> hostCommands st)
  ∧ NoDup (recentlyUsedCommands st)
  ∧ NoDup (JsMap.keys (customCommands st)).
Proof. intros Hreach. by destruct (reachable_consistent st Hreach). Qed.

Lemma registrations_never_leak_witness :
  let env := sampleEnv (Resolves ResultUndefined) in
  let d := mkDisposable 2 "custom-commander.custom.sample"
             (HExecute "custom-commander.custom.sample") in
  let st := (onDidDelete (invoke env d None (sampleState (Resolves ResultUndefined))).2).2 in
  reachable st
  ∧ registeredId <$> hostCommands st =
      ["custom-commander.createCommandsFile"; "custom-commander.reloadCommands";
       "custom-commander.pickCustomCommand"]
  ∧ NoDup (registeredId <$> hostCommands st).
Proof.
  intros env d st.
  assert (reachable st) as Hreach.
  { eapply reachable_step; [|apply step_deleted].
    apply (reachable_step (sampleState (Resolves ResultUndefined)));
      [apply sampleState_reachable|].
    apply step_invoke, sampleState_executor. }
  split; [exact Hreach|]. split; [reflexivity|].
  exact (proj1 (proj2 (registrations_never_leak _ Hreach))).
Defined.

(** X13.  Deactivating the extension disposes of every registration of the
    registry: from a reachable state only the two built-in registrations
    stay active (the host disposes of those), the call cannot fail, and a
    second call changes nothing. *)
Theorem deactivate_disposes_registry (st : State) :
  reachable st →
  deactivate st = (Normal tt, set_hostCommands builtinDisposables st)
  ∧ deactivate (deactivate st).2 = deactivate st.
Proof.
  intros Hreach. pose proof (reachable_consistent st Hreach) as Hst.
  assert (deactivate st = (Normal tt, set_hostCommands builtinDisposables st)) as Hrun.
  { unfold deactivate, mbind, M_bind, gets. rewrite forEach_dispose.
    by rewrite consistent_disposed. }
  split; [done|]. rewrite Hrun. cbn [snd].
  unfold deactivate, mbind, M_bind, gets. rewrite forEach_dispose. f_equal.
  assert (filter (λ r, token r ∉ token <$> customCommandDisposables st) builtinDisposables =
          builtinDisposables) as Hkept.
  { apply filter_all, Forall_forall. intros d Hd Hin.
    destruct Hst as [_ _ _ _ Hhost Htokens _].
    rewrite Hhost, fmap_app in Htokens. apply NoDup_app in Htokens as (_ & Hdisjoint & _).
    apply (Hdisjoint (token d)); [by apply list_elem_of_fmap_2|done]. }
  destruct st. unfold set_hostCommands in *. cbn [hostCommands customCommandDisposables] in *.
  by rewrite Hkept.
Qed.

Lemma deactivate_disposes_registry_witness :
  let st := sampleState (Resolves ResultUndefined) in
  reachable st ∧ hostCommands (deactivate st).2 = builtinDisposables.
Proof.
  assert (reachable (sampleState (Resolves ResultUndefined))) as Hreach.
  { apply sampleState_reachable. }
  split; [exact Hreach|].
  exact (f_equal (λ r, hostCommands r.2)
           (proj1 (deactivate_disposes_registry _ Hreach))).
Defined.

(** ** Labels of the commands *)

Lemma orElse_nonempty (v : option string) (d : string) :
  d ≠ EmptyString → orElse v d ≠ EmptyString.
Proof. intros Hd. destruct v as [s|]; [|done]. simpl. by case_decide. Qed.

Lemma replaceUpperGlobal_nonempty (s : string) :
  s ≠ EmptyString → JsString.replaceUpperGlobal s ≠ EmptyString.
Proof. destruct s as [|c s]; [done|]. intros _. simpl. by destruct (JsString.isUpperAZ c). Qed.

Lemma replaceFirstUpper_nonempty (s : string) :
  s ≠ EmptyString → JsString.replaceFirstUpper s ≠ EmptyString.
Proof. destruct s as [|c s]; [done|]. intros _. simpl. by destruct (JsString.isLineTerminator c). Qed.

(** X14.  Whatever the source text of the function holds, a directive
    cannot blank a label: the description is never the empty string, and
    the name is empty only for the export whose identifier is the empty
    string and that has no usable name directive. *)
Theorem metadata_never_blank (funcName source : string) :
  description (extractMetaFromFunction funcName source) ≠ EmptyString
  ∧ (funcName ≠ EmptyString → name (extractMetaFromFunction funcName source) ≠ EmptyString)
  ∧ (name (extractMetaFromFunction EmptyString source) = EmptyString
     ∨ Some (name (extractMetaFromFunction EmptyString source)) =
       mjoin (foundMeta source !! "name")).
Proof.
  unfold extractMetaFromFunction. cbn [name description]. split; [|split].
  - by apply orElse_nonempty.
  - intros Hname. by apply orElse_nonempty, replaceFirstUpper_nonempty,
      replaceUpperGlobal_nonempty.
  - destruct (mjoin (foundMeta source !! "name")) as [s|]; [|by left]. simpl.
    case_decide; [by left|by right].
Qed.

(** ** Creating the definitions file *)

Lemma inExtension_run {A} (m : M A) (ws : Workspace) :
  inExtension m ws = ((m (extension ws)).1,
                      mkWorkspace (m (extension ws)).2 (disk ws) (notices ws)).
Proof. unfold inExtension. by destruct (m (extension ws)). Qed.

Ltac create_unfold :=
  unfold createCommandsFile, showWarningMessage, mkdirSync, readFileSync, writeFileSync,
    tryCatchW, notice, getsDisk, modifyDisk, throwW, mbind, W_bind, mret, W_ret;
  cbn [commandsFilePath vscodeDirExists commandsFile disk extension notices mkdirError
       overwriteChoice templateRead writeError evaluate resolvedFilename requireCache];
  try (case_bool_decide; simplify_eq);
  cbn [commandsFilePath vscodeDirExists commandsFile disk extension notices mkdirError
       overwriteChoice templateRead writeError evaluate resolvedFilename requireCache];
  rewrite ?inExtension_run;
  cbn [fst snd commandsFilePath vscodeDirExists commandsFile disk extension notices
       errorMessage].

Ltac create_cases env answers ws :=
  destruct env as [[path|] exists0 required0 editor];
  destruct ws as [st [dir [old|]] ns];
  destruct answers as [[mkdirMessage|] chosen [content|readMessage] [writeMessage|] ev resolved cache];
  try destruct dir;
  create_unfold.

(** X15.  The function never replaces an existing definitions file unless
    the user chose [Yes] in the warning, and what it writes is the text of
    the template: in every case the file is as before, or it holds the
    template and the file was new or [Yes] was chosen.  When the file of
    the workspace exists and the answer is not [Yes] the extension is left
    as it was (no reload, no error message).  Without a workspace folder the only
    effect is the error message. *)
Theorem create_never_overwrites_unasked (env : Env) (answers : Answers) (ws : Workspace) :
  (commandsFile (disk (createCommandsFile env answers ws).2) = commandsFile (disk ws)
   ∨ ∃ content,
       templateRead answers = inl content
       ∧ writeError answers = None
       ∧ is_Some (commandsFilePath env)
       ∧ mayWrite answers ws
       ∧ commandsFile (disk (createCommandsFile env answers ws).2) = Some content)
  ∧ (is_Some (commandsFilePath env) → is_Some (commandsFile (disk ws)) →
     overwriteChoice answers ≠ Some "Yes" →
     commandsFile (disk (createCommandsFile env answers ws).2) = commandsFile (disk ws)
     ∧ extension (createCommandsFile env answers ws).2 = extension ws)
  ∧ (commandsFilePath env = None →
     createCommandsFile env answers ws =
     (Normal tt,
      mkWorkspace
        (set_log (log (extension ws) ++ [ShowErrorMessage "No workspace folder found"])
           (extension ws))
        (disk ws) (notices ws))).
Proof.
  split; [|split].
  - create_cases env answers ws.
    all: try (left; reflexivity).
    all: right; exists content; unfold mayWrite; cbn;
      repeat split; try done; try (by eexists); try (by left); by right.
  - intros [path Hpath] [old Hfile] Hchoice.
    destruct env as [path0 exists0 required0 editor];
      destruct ws as [st [[] file] ns];
      destruct answers as [[mkdirMessage|] chosen [content|readMessage] [writeMessage|] ev resolved cache];
      cbn in Hpath, Hfile, Hchoice; subst path0 file; create_unfold; done.
  - intros Hpath. create_cases env answers ws; done.
Qed.

Lemma requireOn_evicted (path : string) (answers : Answers) (content : string) :
  resolvedFilename answers = path ∨ requireCache answers !! resolvedFilename answers = None →
  requireOn answers (evictCommands (Some path) (requireCache answers)) content =
  evaluate answers content.
Proof.
  intros Hfresh. unfold requireOn, evictCommands.
  assert ((if decide (is_Some (requireCache answers !! path))
           then delete path (requireCache answers) else requireCache answers)
          !! resolvedFilename answers = None) as ->; [|done].
  case_decide as Hcached.
  - destruct Hfresh as [->|Hnone]; [apply lookup_delete_eq|].
    apply lookup_delete_None. by right.
  - destruct Hfresh as [->|Hnone]; [|done].
    by apply eq_None_not_Some.
Qed.

Lemma requireOn_kept (path : string) (answers : Answers) (content : string)
    (m : ModuleValue) :
  resolvedFilename answers ≠ path →
  requireCache answers !! resolvedFilename answers = Some m →
  requireOn answers (evictCommands (Some path) (requireCache answers)) content =
  RequireReturns m.
Proof.
  intros Hpath Hcached. unfold requireOn, evictCommands.
  assert ((if decide (is_Some (requireCache answers !! path))
           then delete path (requireCache answers) else requireCache answers)
          !! resolvedFilename answers = Some m) as ->; [|done].
  case_decide; [|done]. by rewrite lookup_delete_ne.
Qed.

(** The outcome of a reload that is not silent and whose [require] returns
    a module. *)
Lemma reloadCommands_entries (env : Env) (st : State) (entries : list (string * Export)) :
  is_Some (commandsFilePath env) → fileExists env = true →
  required env = RequireReturns (ModuleEntries entries) →
  NoDup entries.*1 →
  let reloaded := reloadCommands env false st in
  reloaded.1 = Normal tt
  ∧ customCommands reloaded.2 = exportedCommands entries
  ∧ registryMatches reloaded.2
  ∧ log reloaded.2 =
      log st ++
      [SetStatusBarMessage
         ("Reloaded " +:+
          NilZero.string_of_uint (Nat.to_uint (length (exportedCommands entries))) +:+
          " custom commands")].
Proof.
  intros Hpath Hfile Hreq Hnd reloaded. unfold reloaded. rewrite reloadCommands_run.
  pose proof (loaded_entries env entries Hpath Hfile Hreq Hnd) as Hloaded.
  rewrite Hloaded. cbn [loadedCompletion fst snd]. split; [done|].
  split; [|split; [apply registryMatches_set_log, registryMatches_registered|]].
  - unfold afterLoad. by rewrite Hloaded.
  - unfold afterLoad. rewrite Hloaded. cbn [loadedCommands loadedEvents].
    cbn [set_log log registered customCommands]. by rewrite app_nil_r.
Qed.

(** X16.  When the file is new or the user chose [Yes], and reading the
    template and writing the file succeed, the definitions file holds the
    text of the template, the document is opened and shown (after the
    warning, if there was one, and before any event of the reload), and the
    call ends as the reload does that finds the written file and the cache
    of [require] after the deletion of its entry, with the extension in the
    state of that reload.  What the reload loads depends on the cache.  If
    [require] stores the module under the path itself, or the cache holds
    no module for the file, the written text is evaluated: when that gives
    a module, the command set is the one of its exported functions, the
    registry matches it, and the only event is the status message.  If
    [require] stores the module under another file name (the path leads
    through a symbolic link) and the cache holds a module for the file,
    the deletion misses it and the command set is the one of that earlier
    module, whatever the template holds. *)
Theorem create_writes_template_and_reloads (env : Env) (answers : Answers)
    (ws : Workspace) (path content : string) :
  commandsFilePath env = Some path →
  dirReady answers ws → mayWrite answers ws →
  templateRead answers = inl content → writeError answers = None →
  let written := mkDisk true (Some content) in
  let reloaded := reloadCommands (envOn env answers written) false (extension ws) in
  let n := length (log (extension ws)) in
  let announced (entries : list (string * Export)) :=
    reloaded.1 = Normal tt
    ∧ customCommands reloaded.2 = exportedCommands entries
    ∧ registryMatches reloaded.2
    ∧ log reloaded.2 =
        log (extension ws) ++
        [SetStatusBarMessage
           ("Reloaded " +:+
            NilZero.string_of_uint (Nat.to_uint (length (exportedCommands entries))) +:+
            " custom commands")] in
  createCommandsFile env answers ws =
    (reloaded.1,
     mkWorkspace reloaded.2 written
       (notices ws ++ overwriteNotices ws ++
        [(n, OpenTextDocument path); (n, ShowTextDocument path)]))
  ∧ (∀ entries,
       resolvedFilename answers = path
       ∨ requireCache answers !! resolvedFilename answers = None →
       evaluate answers content = RequireReturns (ModuleEntries entries) →
       NoDup entries.*1 →
       announced entries)
  ∧ (∀ earlier,
       resolvedFilename answers ≠ path →
       requireCache answers !! resolvedFilename answers = Some (ModuleEntries earlier) →
       NoDup earlier.*1 →
       announced earlier).
Proof.
  intros Hpath Hdir Hwrite Hread Hok written reloaded n announced. split; [|split].
  - unfold reloaded, written, n, overwriteNotices.
    destruct env as [path0 exists0 required0 editor];
      destruct ws as [st [dir file] ns];
      destruct answers as [mkdirMessage chosen template writeMessage ev resolved cache].
    unfold dirReady, mayWrite in *. cbn in Hpath, Hdir, Hwrite, Hread, Hok. subst.
    destruct Hdir as [->| ->], Hwrite as [->| ->]; try destruct dir; try destruct file;
      try destruct mkdirMessage; create_unfold; cbn [id]; rewrite <-?app_assoc; try done.
  - intros entries Hfresh Heval Hnd.
    apply reloadCommands_entries; [by exists path|done| |done].
    cbn [envOn required written commandsFile]. rewrite Hpath.
    by rewrite requireOn_evicted.
  - intros earlier Hlink Hcached Hnd.
    apply reloadCommands_entries; [by exists path|done| |done].
    cbn [envOn required written commandsFile]. rewrite Hpath.
    by rewrite (requireOn_kept _ _ _ _ Hlink Hcached).
Qed.

Lemma create_writes_template_and_reloads_witness :
  let env := sampleEnv (Resolves ResultUndefined) in
  let answers :=
    mkAnswers None None (inl "module.exports = { sample, version }") None
      (λ _, required env) samplePath ∅ in
  let ws := mkWorkspace clearedState (mkDisk false None) [] in
  dirReady answers ws
  ∧ mayWrite answers ws
  ∧ disk (createCommandsFile env answers ws).2 =
      mkDisk true (Some "module.exports = { sample, version }")
  ∧ notices (createCommandsFile env answers ws).2 =
      [(length (log clearedState), OpenTextDocument samplePath);
       (length (log clearedState), ShowTextDocument samplePath)]
  ∧ JsMap.keys (customCommands (extension (createCommandsFile env answers ws).2)) =
      ["custom-commander.custom.sample"].
Proof.
  intros env answers ws.
  assert (dirReady answers ws) as Hdir by (by right).
  assert (mayWrite answers ws) as Hwrite by (by left).
  split; [exact Hdir|]. split; [exact Hwrite|].
  pose proof (create_writes_template_and_reloads env answers ws samplePath
    "module.exports = { sample, version }" eq_refl Hdir Hwrite eq_refl eq_refl)
    as (Hrun & Hfresh & _).
  split; [exact (f_equal (λ r, disk r.2) Hrun)|].
  split; [exact (f_equal (λ r, notices r.2) Hrun)|].
  rewrite Hrun. cbn [snd extension].
  assert (NoDup [("sample", ExportFunction (sampleCallable (Resolves ResultUndefined)));
                 ("version", ExportOther)].*1) as Hnd.
  { cbn. apply NoDup_cons. split; [by intros [=]%list_elem_of_singleton|].
    apply NoDup_singleton. }
  by rewrite (proj1 (proj2 (Hfresh _ (or_introl eq_refl) eq_refl Hnd))).
Defined.

(** X17.  When reading the template or writing the file fails, the error
    is reported with the message of the failure and the call ends
    normally: the definitions file is as it was, no document is opened and
    the extension does not reload. *)
Theorem create_failure_reported (env : Env) (answers : Answers) (ws : Workspace)
    (path message : string) :
  commandsFilePath env = Some path →
  dirReady answers ws → mayWrite answers ws →
  templateRead answers = inr message
  ∨ ((∃ content, templateRead answers = inl content)
     ∧ writeError answers = Some message) →
  createCommandsFile env answers ws =
    (Normal tt,
     mkWorkspace
       (set_log
          (log (extension ws) ++
           [ShowErrorMessage ("Error creating template file: " +:+ message)])
          (extension ws))
       (mkDisk true (commandsFile (disk ws)))
       (notices ws ++ overwriteNotices ws)).
Proof.
  intros Hpath Hdir Hwrite Hfail. unfold overwriteNotices.
  destruct env as [path0 exists0 required0 editor];
    destruct ws as [st [dir file] ns];
    destruct answers as [mkdirMessage chosen template writeMessage ev resolved cache].
  unfold dirReady, mayWrite in *. cbn in Hpath, Hdir, Hwrite, Hfail. subst.
  destruct Hfail as [->|[[content ->] ->]];
    destruct Hdir as [->| ->], Hwrite as [->| ->]; try destruct dir; try destruct file;
    try destruct mkdirMessage; create_unfold; rewrite ?app_nil_r; done.
Qed.

Lemma create_failure_reported_witness :
  let env := sampleEnv (Resolves ResultUndefined) in
  let answers :=
    mkAnswers None (Some "Yes") (inr "ENOENT: no such file or directory") None
      (λ _, required env) samplePath ∅ in
  let ws := mkWorkspace (sampleState (Resolves ResultUndefined))
              (mkDisk true (Some "module.exports = {}")) [] in
  dirReady answers ws
  ∧ mayWrite answers ws
  ∧ createCommandsFile env answers ws =
      (Normal tt,
       mkWorkspace
         (set_log
            (log (extension ws) ++
             [ShowErrorMessage
                "Error creating template file: ENOENT: no such file or directory"])
            (extension ws))
         (mkDisk true (Some "module.exports = {}"))
         [(length (log (extension ws)),
           ShowWarningMessage overwriteQuestion ["Yes"; "No"])]).
Proof.
  intros env answers ws.
  assert (dirReady answers ws) as Hdir by (by left).
  assert (mayWrite answers ws) as Hwrite by (by right).
  split; [exact Hdir|]. split; [exact Hwrite|].
  exact (create_failure_reported env answers ws samplePath
           "ENOENT: no such file or directory" eq_refl Hdir Hwrite (or_introl eq_refl)).
Defined.
